(** * Accordion notes builder: tree store, locks, ordering and bullet text

    Shallow embedding of [Accromium_builder.py].

    - Python [str] values are sequences of Unicode code points: [list N].
    - A [dict] keeps insertion order, so it is an association list; the
      operations below ([dict_set], [dict_del], ...) follow the behaviour of
      [d[k] = v], [del d[k]], [k in d] and [list(d.keys())].
    - The module-level globals ([accordion_data], [current_selection],
      [selected_image_path], [locked_paths]) become the fields of [state];
      every GUI action is a function from the widget inputs and a [state] to
      an [outcome] (the message box shown, if any) and the next [state].
    - [locked_paths] is a Python [set] of strings: a [gset].
    - The entry widgets, the dialogs and the answer of the confirmation box
      are inputs of the actions. [draft_dirty], [all_paths_cache] and the
      backup file written by [save_backup] do not influence the tree or the
      lock set and are left out. *)

From Stdlib Require Import NArith String Ascii.
From stdpp Require Import base list gmap.

Local Open Scope N_scope.

Abbreviation str := (list N).

(** ** Python string primitives *)

(** An ASCII literal as a sequence of code points. *)
Definition text (s : string) : str :=
  map N_of_ascii (list_ascii_of_string s).
Arguments text : simpl never.

Definition LF : N := 10.
Definition SPACE : N := 32.
(** U+2022 BULLET *)
Definition BULLET : N := 8226.

(** [str.isspace] on one code point; the regular expression class [\s] of a
    [str] pattern is the same predicate. *)
Definition is_space (c : N) : bool :=
  ((9 <=? c) && (c <=? 13)) || ((28 <=? c) && (c <=? 32))
  || (c =? 133) || (c =? 160) || (c =? 5760)
  || ((8192 <=? c) && (c <=? 8202))
  || (c =? 8232) || (c =? 8233) || (c =? 8239) || (c =? 8287) || (c =? 12288).

(** First code points of the runs of ten decimal digits (general category
    Nd, Unicode 14). *)
Definition decimal_runs : list N :=
  [48; 1632; 1776; 1984; 2406; 2534; 2662; 2790; 2918; 3046; 3174; 3302;
   3430; 3558; 3664; 3792; 3872; 4160; 4240; 6112; 6160; 6470; 6608; 6784;
   6800; 6992; 7088; 7232; 7248; 42528; 43216; 43264; 43472; 43504; 43600;
   44016; 65296; 66720; 68912; 69734; 69872; 69942; 70096; 70384; 70736;
   70864; 71248; 71360; 71472; 71904; 72016; 72784; 73040; 73120; 92768;
   92864; 93008; 123200; 123632; 125264; 130032].

(** The class [\d] of a [str] pattern: any Unicode decimal digit. The
    mathematical digits U+1D7CE..U+1D7FF form one run of fifty. *)
Definition is_decimal (c : N) : bool :=
  existsb (fun lo => (lo <=? c) && (c <? lo + 10)) decimal_runs
  || ((120782 <=? c) && (c <=? 120831)).

Fixpoint lstrip (s : str) : str :=
  match s with
  | [] => []
  | c :: s' => if is_space c then lstrip s' else s
  end.

Fixpoint rstrip (s : str) : str :=
  match s with
  | [] => []
  | c :: s' =>
      match rstrip s' with
      | [] => if is_space c then [] else [c]
      | r => c :: r
      end
  end.

(** [s.strip()] *)
Definition strip (s : str) : str := rstrip (lstrip s).

(** [s.startswith(p)] *)
Fixpoint starts_with (p s : str) : bool :=
  match p, s with
  | [], _ => true
  | a :: p', b :: s' => (a =? b) && starts_with p' s'
  | _ :: _, [] => false
  end.

(** [s.split(sep)] for a non-empty separator: scan left to right, cut at
    every occurrence of [sep] and resume after it. [skip] counts the code
    points of a separator still to be passed over, [cur] is the piece being
    collected. *)
Fixpoint split_from (sep : str) (skip : nat) (cur : str) (s : str) : list str :=
  match s with
  | [] => [cur]
  | c :: s' =>
      match skip with
      | S n => split_from sep n cur s'
      | O =>
          if starts_with sep s
          then cur :: split_from sep (pred (length sep)) [] s'
          else split_from sep 0 (cur ++ [c]) s'
      end
  end.

Definition split (sep s : str) : list str := split_from sep 0 [] s.

(** [sep.join(parts)] *)
Fixpoint join (sep : str) (parts : list str) : str :=
  match parts with
  | [] => []
  | [x] => x
  | x :: rest => x ++ sep ++ join sep rest
  end.

(** ** Bullet normalization

    [bullet_start_regex = re.compile(r'^\s*(?:[-*+•]|(?:\d+\.))\s+')].
    The pattern is run by a backtracking matcher in continuation-passing
    style: each combinator receives the continuation [k] matching the rest of
    the pattern and the remaining input, tries its alternatives in the
    priority order of [re] (greedy: longest first) and yields the input left
    after the first overall match. *)

Section Regex.
Variable p : N -> bool.
Variable k : str -> option str.

(** one code point of class [p] *)
Definition re_class (s : str) : option str :=
  match s with
  | c :: s' => if p c then k s' else None
  | [] => None
  end.

(** [p*], greedy *)
Fixpoint re_star (s : str) : option str :=
  match s with
  | c :: s' =>
      if p c
      then match re_star s' with
           | Some r => Some r
           | None => k s
           end
      else k s
  | [] => k []
  end.

(** [p+], greedy *)
Definition re_plus (s : str) : option str :=
  match s with
  | c :: s' => if p c then re_star s' else None
  | [] => None
  end.
End Regex.

(** the class [[-*+•]] *)
Definition is_bullet_mark (c : N) : bool :=
  (c =? 45) || (c =? 42) || (c =? 43) || (c =? BULLET).

Definition is_dot (c : N) : bool := c =? 46.

(** [bullet_start_regex.match(ln)]: [None] when the line does not match,
    otherwise the part of the line after the match. *)
Definition bullet_start_regex_match (ln : str) : option str :=
  re_star is_space
    (fun s =>
       match re_class is_bullet_mark (re_plus is_space Some) s with
       | Some r => Some r
       | None => re_plus is_decimal (re_class is_dot (re_plus is_space Some)) s
       end)
    ln.

(** [bullet_start_regex.sub("", ln)]: the pattern is anchored at the start
    of the string, so at most the one match at position 0 is replaced. *)
Definition bullet_start_regex_sub_empty (ln : str) : str :=
  match bullet_start_regex_match ln with
  | Some r => r
  | None => ln
  end.

(** the body of the loop of [normalize_universal_bullets] *)
Definition normalize_line (ln : str) : str :=
  match bullet_start_regex_match ln with
  | Some _ => BULLET :: SPACE :: strip (bullet_start_regex_sub_empty ln)
  | None => ln
  end.

Definition normalize_universal_bullets (t : str) : str :=
  join [LF] (map normalize_line (split [LF] t)).

(** ** Conversion to HTML *)

(** [flush_list] of [content_to_html], on the pair of the two local lists *)
Definition flush_list (st : list str * list str) : list str * list str :=
  let '(html_parts, list_buffer) := st in
  match list_buffer with
  | [] => st
  | _ =>
      (html_parts ++ [text "<ul>"]
         ++ map (fun item => text "<li>" ++ item ++ text "</li>") list_buffer
         ++ [text "</ul>"],
       [])
  end.

(** one iteration of the loop over the lines *)
Definition html_step (st : list str * list str) (ln : str) : list str * list str :=
  let '(html_parts, list_buffer) := st in
  if starts_with [BULLET; SPACE] ln
  then (html_parts, list_buffer ++ [strip (drop 2 ln)])
  else
    let '(html_parts', list_buffer') := flush_list st in
    if bool_decide (strip ln = [])
    then (html_parts', list_buffer')
    else (html_parts' ++ [text "<p>" ++ strip ln ++ text "</p>"], list_buffer').

Definition content_to_html (content : str) : str :=
  let content := strip content in
  match content with
  | [] => []
  | _ =>
      let lines := split [LF] content in
      join [LF] (fst (flush_list (foldl html_step ([], []) lines)))
  end.


(** ** The tree

    A node is the dictionary [{"content": .., "image_path": .., "subtitles":
    {..}}] that [add_title] and [add_subtitle] build; the three keys are
    always present on such nodes, so [details.get(key, default)] is a field
    access. *)

#[warnings="-register-all"] Inductive node : Type :=
  Node { content : str; image_path : str; subtitles : list (str * node) }.

Abbreviation dict := (list (str * node)).

Definition str_eqb (a b : str) : bool := bool_decide (a = b).

(** [list(d.keys())] *)
Definition keys (d : dict) : list str := map fst d.

(** [k in d] *)
Definition dict_mem (k : str) (d : dict) : bool :=
  existsb (str_eqb k) (keys d).

(** [d[k]], [None] for a [KeyError] *)
Fixpoint dict_get (k : str) (d : dict) : option node :=
  match d with
  | [] => None
  | (k', v) :: d' => if str_eqb k k' then Some v else dict_get k d'
  end.

(** [d[k] = f(d[k])] on an existing key: the entry keeps its position *)
Fixpoint dict_alter (f : node -> node) (k : str) (d : dict) : dict :=
  match d with
  | [] => []
  | (k', v) :: d' =>
      if str_eqb k k' then (k', f v) :: d' else (k', v) :: dict_alter f k d'
  end.

(** [d[k] = v]: an existing key keeps its position, a new key goes last *)
Fixpoint dict_set (k : str) (v : node) (d : dict) : dict :=
  match d with
  | [] => [(k, v)]
  | (k', v') :: d' =>
      if str_eqb k k' then (k', v) :: d' else (k', v') :: dict_set k v d'
  end.

(** [del d[k]] *)
Fixpoint dict_del (k : str) (d : dict) : dict :=
  match d with
  | [] => []
  | (k', v) :: d' => if str_eqb k k' then d' else (k', v) :: dict_del k d'
  end.

(** [d.clear()] followed by [for k, v in items: d[k] = v] *)
Definition dict_rebuild (items : list (str * node)) : dict :=
  foldl (fun d kv => dict_set (fst kv) (snd kv) d) [] items.

Definition set_subtitles (subs : dict) (n : node) : node :=
  Node (content n) (image_path n) subs.

(** The loop [for part in parts: parent = parent[part]["subtitles"]] shared
    by the path helpers; [None] when a part is missing. *)
Fixpoint descend (parts : list str) (parent : dict) : option dict :=
  match parts with
  | [] => Some parent
  | part :: rest =>
      match dict_get part parent with
      | None => None
      | Some n => descend rest (subtitles n)
      end
  end.

(** An in-place mutation [f] of the dictionary that [descend parts] reaches:
    Python mutates the shared object, here the path to it is rebuilt. *)
Fixpoint modify_at (parts : list str) (f : dict -> dict) (d : dict) : dict :=
  match parts with
  | [] => f d
  | part :: rest =>
      dict_alter (fun n => set_subtitles (modify_at rest f (subtitles n)) n) part d
  end.

Definition SEP : str := text " > ".

(** [parts[:-1]] and [parts[-1]] of a non-empty list *)
Definition init_parts (parts : list str) : list str := List.removelast parts.
Definition last_part (parts : list str) : str := List.last parts [].

(** ** State of the program *)

Record state : Type := State {
  accordion_data : dict;
  current_selection : str;
  selected_image_path : str;
  locked_paths : gset str
}.

Definition with_data (d : dict) (st : state) : state :=
  State d (current_selection st) (selected_image_path st) (locked_paths st).
Definition with_selection (s : str) (st : state) : state :=
  State (accordion_data st) s (selected_image_path st) (locked_paths st).
Definition with_image (i : str) (st : state) : state :=
  State (accordion_data st) (current_selection st) i (locked_paths st).
Definition with_locks (l : gset str) (st : state) : state :=
  State (accordion_data st) (current_selection st) (selected_image_path st) l.

(** ** Path helpers *)

(** [get_parent_dict_and_key]: the parent dictionary is returned together
    with the parts leading to it, which stand for the reference to it. *)
Definition get_parent_dict_and_key (data : dict) (path_str : str)
  : option (list str * dict * str) :=
  match path_str with
  | [] => None
  | _ =>
      let parts := split SEP path_str in
      match descend (init_parts parts) data with
      | None => None
      | Some parent =>
          let last_key := last_part parts in
          if dict_mem last_key parent
          then Some (init_parts parts, parent, last_key)
          else None
      end
  end.

Definition get_item_data (data : dict) (path_str : str) : option node :=
  match get_parent_dict_and_key data path_str with
  | None => None
  | Some (_, parent, key) => dict_get key parent
  end.

(** [get_siblings]: parent dictionary (with the parts leading to it) and
    the ordered sibling keys *)
Definition get_siblings (data : dict) (path_str : str)
  : option (list str * dict) * list str :=
  match path_str with
  | [] => (None, [])
  | _ =>
      let parts := split SEP path_str in
      match descend (init_parts parts) data with
      | None => (None, [])
      | Some parent => (Some (init_parts parts, parent), keys parent)
      end
  end.

(** [ensure_parent_path]: the nodes of this model always have their
    ["subtitles"] entry, so nothing is created on the way. *)
Definition ensure_parent_path (data : dict) (parts : list str)
  : option (list str * dict) :=
  match descend (init_parts parts) data with
  | None => None
  | Some parent => Some (init_parts parts, parent)
  end.

(** The candidates [" > ".join(parts[:i+1])] for [i] in [range(len(parts))] *)
Definition ancestor_candidates (path_str : str) : list str :=
  let parts := split SEP path_str in
  map (fun i => join SEP (take (S i) parts)) (seq 0 (length parts)).

Definition any_ancestor_locked (locked : gset str) (path_str : str) : option str :=
  List.find (fun candidate => bool_decide (candidate ∈ locked))
    (ancestor_candidates path_str).

(** Truth value of an optional string: [None] and [""] are false. *)
Definition truthy (o : option str) : bool :=
  match o with
  | Some (_ :: _) => true
  | _ => false
  end.

(** ** GUI actions

    What the user sees of a call: the message box shown before the early
    [return], or [Done] when the action ran to its end. *)

Inductive outcome : Type :=
  | Done
  | NoSelection
  | Locked (governing : str)
  | EmptyTitle
  | DuplicateTitle
  | ParentNotFound
  | NotFound
  | OldTitleNotFound
  | KeyError
  | Cancelled
  | AlreadyAtBoundary
  | UnknownDirection
  | InvalidPath
  | SourceNotFound
  | DestinationParentNotFound
  | DestinationDuplicate.

(** The paths listed by [recurse] of [update_structure_display], in display
    order. *)
Definition child_path (path key : str) : str :=
  match path with
  | [] => key
  | _ => path ++ SEP ++ key
  end.

Fixpoint recurse_node (current_path : str) (value : node) {struct value} : list str :=
  match value with
  | Node _ _ subs =>
      (fix recurse (data : dict) : list str :=
         match data with
         | [] => []
         | (key, v) :: rest =>
             child_path current_path key
               :: recurse_node (child_path current_path key) v ++ recurse rest
         end) subs
  end.

Definition all_paths (data : dict) : list str :=
  recurse_node [] (Node [] [] data).

(** [update_structure_display(select_path=..)] without a filter term: the
    selection is kept when the path is listed and cleared otherwise. *)
Definition update_structure_display (select_path : option str) (st : state) : state :=
  match select_path with
  | Some (c :: p) =>
      if bool_decide ((c :: p) ∈ all_paths (accordion_data st))
      then with_selection (c :: p) st
      else with_selection [] st
  | _ => with_selection [] st
  end.

(** [clear_inputs]: of the globals only [selected_image_path] is reset. *)
Definition clear_inputs (st : state) : state := with_image [] st.

Definition add_title (title_entry content_text : str) (st : state) : outcome * state :=
  let title := strip title_entry in
  let new_content := normalize_universal_bullets (strip content_text) in
  match title with
  | [] => (EmptyTitle, st)
  | _ =>
      if dict_mem title (accordion_data st) then (DuplicateTitle, st)
      else
        let data := dict_set title (Node new_content (selected_image_path st) [])
                      (accordion_data st) in
        let st := clear_inputs (with_data data st) in
        let st := update_structure_display (Some title) st in
        (Done, with_image [] st)
  end.

Definition add_subtitle (title_entry content_text : str) (st : state) : outcome * state :=
  let title := strip title_entry in
  let new_content := normalize_universal_bullets (strip content_text) in
  match title, current_selection st with
  | [], _ => (EmptyTitle, st)
  | _, [] => (NoSelection, st)
  | _, _ =>
      let locked_ancestor_path :=
        any_ancestor_locked (locked_paths st) (current_selection st) in
      let parent_path :=
        if truthy locked_ancestor_path
        then default [] locked_ancestor_path
        else current_selection st in
      match get_parent_dict_and_key (accordion_data st) parent_path with
      | None => (ParentNotFound, st)
      | Some (parent_parts, parent_dict, parent_key) =>
          match dict_get parent_key parent_dict with
          | None => (ParentNotFound, st)
          | Some parent_node =>
              let subs := subtitles parent_node in
              if dict_mem title subs then (DuplicateTitle, st)
              else
                let new_node := Node new_content (selected_image_path st) [] in
                let data :=
                  modify_at (parent_parts ++ [parent_key]) (dict_set title new_node)
                    (accordion_data st) in
                let new_path := parent_path ++ SEP ++ title in
                let st := clear_inputs (with_data data st) in
                let st := update_structure_display (Some new_path) st in
                (Done, with_image [] st)
          end
      end
  end.

(** The list [new_items] of [save_changes]: [None] if [parent_dict[k]]
    raised. *)
Definition renamed_items (new_title : str) (item_data : node) (parent_dict : dict)
    (keys' : list str) : option (list (str * node)) :=
  mapM (fun k =>
          if str_eqb k new_title then Some (new_title, item_data)
          else v ← dict_get k parent_dict; Some (k, v))
       keys'.

(** [keys.index(old_key)] once [old_key in keys] holds *)
Fixpoint index_of (k : str) (ks : list str) : nat :=
  match ks with
  | [] => 0
  | k' :: ks' => if str_eqb k k' then 0 else S (index_of k ks')
  end.

Definition save_changes (title_entry content_text : str) (st : state) : outcome * state :=
  match current_selection st with
  | [] => (NoSelection, st)
  | _ =>
      let locked_ancestor :=
        any_ancestor_locked (locked_paths st) (current_selection st) in
      if truthy locked_ancestor then (Locked (default [] locked_ancestor), st)
      else
        match get_parent_dict_and_key (accordion_data st) (current_selection st) with
        | None => (NotFound, st)
        | Some (parent_parts, parent_dict, old_key) =>
            match dict_get old_key parent_dict with
            | None => (KeyError, st)
            | Some item_data =>
                let new_title := strip title_entry in
                let new_content := normalize_universal_bullets (strip content_text) in
                let new_image_path :=
                  match selected_image_path st with
                  | [] => image_path item_data
                  | i => i
                  end in
                match new_title with
                | [] => (EmptyTitle, st)
                | _ =>
                    if negb (str_eqb new_title old_key) && dict_mem new_title parent_dict
                    then (DuplicateTitle, st)
                    else
                      (* Apply data: the node object is updated where it is *)
                      let item_data := Node new_content new_image_path (subtitles item_data) in
                      let apply_data := dict_alter (fun _ => item_data) old_key in
                      let parent_dict := apply_data parent_dict in
                      let st := with_data (modify_at parent_parts apply_data
                                             (accordion_data st)) st in
                      if negb (str_eqb new_title old_key) then
                        let ks := keys parent_dict in
                        if existsb (str_eqb old_key) ks then
                          let idx := index_of old_key ks in
                          let ks := <[idx := new_title]> ks in
                          match renamed_items new_title item_data parent_dict ks with
                          | None => (KeyError, st)
                          | Some new_items =>
                              let data := modify_at parent_parts
                                            (fun _ => dict_rebuild new_items)
                                            (accordion_data st) in
                              let path_parts := split SEP (current_selection st) in
                              let path_parts :=
                                <[pred (length path_parts) := new_title]> path_parts in
                              let st := with_selection (join SEP path_parts)
                                          (with_data data st) in
                              (Done, update_structure_display (Some (current_selection st)) st)
                          end
                        else (OldTitleNotFound, st)
                      else
                        let data := modify_at parent_parts (dict_set old_key item_data)
                                      (accordion_data st) in
                        let st := with_data data st in
                        (Done, update_structure_display (Some (current_selection st)) st)
                end
            end
        end
  end.

Definition delete_item (confirm : bool) (st : state) : outcome * state :=
  match current_selection st with
  | [] => (NoSelection, st)
  | _ =>
      let locked_ancestor :=
        any_ancestor_locked (locked_paths st) (current_selection st) in
      if truthy locked_ancestor then (Locked (default [] locked_ancestor), st)
      else if negb confirm then (Cancelled, st)
      else
        match get_parent_dict_and_key (accordion_data st) (current_selection st) with
        | None => (NotFound, st)
        | Some (parent_parts, _, key_to_delete) =>
            let data := modify_at parent_parts (dict_del key_to_delete)
                          (accordion_data st) in
            let st := clear_inputs (with_data data st) in
            let st := with_selection [] st in
            (Done, update_structure_display None st)
        end
  end.

(** [l.pop(i)] leaves [delete i l]; [l.insert(i, x)] *)
Definition list_insert_at {A} (i : nat) (x : A) (l : list A) : list A :=
  take i l ++ x :: drop i l.

(** [[(k, parent_dict[k]) for k in siblings]], [None] if a lookup raised *)
Definition reordered_items (parent_dict : dict) (siblings : list str)
  : option (list (str * node)) :=
  mapM (fun k => v ← dict_get k parent_dict; Some (k, v)) siblings.

Definition move_item (direction : str) (st : state) : outcome * state :=
  match current_selection st with
  | [] => (NoSelection, st)
  | _ =>
      let locked_ancestor :=
        any_ancestor_locked (locked_paths st) (current_selection st) in
      if truthy locked_ancestor then (Locked (default [] locked_ancestor), st)
      else
        let item_key := last_part (split SEP (current_selection st)) in
        match get_siblings (accordion_data st) (current_selection st) with
        | (None, _) => (NotFound, st)
        | (Some (parent_parts, parent_dict), siblings) =>
            if negb (existsb (str_eqb item_key) siblings) then (NotFound, st)
            else
              let idx := index_of item_key siblings in
              let new_index :=
                if str_eqb direction (text "up") then
                  if bool_decide (idx = 0%nat) then inl AlreadyAtBoundary
                  else inr (idx - 1)%nat
                else if str_eqb direction (text "down") then
                  if bool_decide (idx = (length siblings - 1)%nat) then inl AlreadyAtBoundary
                  else inr (idx + 1)%nat
                else inl UnknownDirection in
              match new_index with
              | inl o => (o, st)
              | inr new_index =>
                  let siblings :=
                    list_insert_at new_index item_key (delete idx siblings) in
                  match reordered_items parent_dict siblings with
                  | None => (KeyError, st)
                  | Some reordered =>
                      let data := modify_at parent_parts (fun _ => dict_rebuild reordered)
                                    (accordion_data st) in
                      let st := with_data data st in
                      (Done, update_structure_display (Some (current_selection st)) st)
                  end
              end
        end
  end.

Definition move_item_up := move_item (text "up").
Definition move_item_down := move_item (text "down").

Definition toggle_lock_selected (st : state) : outcome * state :=
  match current_selection st with
  | [] => (NoSelection, st)
  | full_path =>
      let st :=
        if bool_decide (full_path ∈ locked_paths st)
        then with_locks (locked_paths st ∖ {[full_path]}) st
        else with_locks (locked_paths st ∪ {[full_path]}) st in
      (Done, update_structure_display (Some (current_selection st)) st)
  end.

(** [[p.strip() for p in new_path.split(" > ") if p.strip()]] *)
Definition parse_new_path (new_path : str) : list str :=
  filter (fun p => p <> []) (map strip (split SEP new_path)).

(** [new_path] is the answer of the dialog, [None] when it was dismissed. *)
Definition change_path (new_path : option str) (st : state) : outcome * state :=
  match current_selection st with
  | [] => (NoSelection, st)
  | _ =>
      let locked_ancestor :=
        any_ancestor_locked (locked_paths st) (current_selection st) in
      if truthy locked_ancestor then (Locked (default [] locked_ancestor), st)
      else if negb (truthy new_path) then (Cancelled, st)
      else
        let new_parts := parse_new_path (default [] new_path) in
        match new_parts with
        | [] => (InvalidPath, st)
        | _ =>
            match get_parent_dict_and_key (accordion_data st) (current_selection st) with
            | None => (SourceNotFound, st)
            | Some (src_parts, src_parent, src_key) =>
                match dict_get src_key src_parent with
                | None => (KeyError, st)
                | Some item_copy =>
                    (* Remove from old *)
                    let st := with_data (modify_at src_parts (dict_del src_key)
                                           (accordion_data st)) st in
                    let restore_original st :=
                      with_data (modify_at src_parts (dict_set src_key item_copy)
                                   (accordion_data st)) st in
                    match ensure_parent_path (accordion_data st) new_parts with
                    | None => (DestinationParentNotFound, restore_original st)
                    | Some (dest_parts, dest_parent) =>
                        let dest_key := last_part new_parts in
                        if dict_mem dest_key dest_parent
                        then (DestinationDuplicate, restore_original st)
                        else
                          let data := modify_at dest_parts (dict_set dest_key item_copy)
                                        (accordion_data st) in
                          let st := with_selection (join SEP new_parts) (with_data data st) in
                          (Done, update_structure_display (Some (current_selection st)) st)
                    end
                end
            end
        end
  end.

(** ** Typed view of the generated markup

    The specification describes the output of the conversion as a sequence
    of typed blocks. [spec_to_markup_fragments] follows the wording of the
    specification; [render_blocks] writes blocks the way [content_to_html]
    emits them, so that the two can be compared. *)

Inductive block : Type :=
  | ListBlock (items : list str)
  | Paragraph (t : str).

Definition spec_flush (pending : list str) : list block :=
  match pending with
  | [] => []
  | _ => [ListBlock pending]
  end.

Definition spec_fragment_step (st : list block * list str) (ln : str)
  : list block * list str :=
  let '(blocks, pending) := st in
  if starts_with [BULLET; SPACE] ln
  then (blocks, pending ++ [strip (drop 2 ln)])
  else
    let blocks := blocks ++ spec_flush pending in
    if bool_decide (strip ln = []) then (blocks, [])
    else (blocks ++ [Paragraph (strip ln)], []).

Definition spec_to_markup_fragments (normalized : str) : list block :=
  let '(blocks, pending) :=
    foldl spec_fragment_step ([], []) (split [LF] normalized) in
  blocks ++ spec_flush pending.

Definition render_block (b : block) : list str :=
  match b with
  | ListBlock items =>
      [text "<ul>"]
        ++ map (fun item => text "<li>" ++ item ++ text "</li>") items
        ++ [text "</ul>"]
  | Paragraph t => [text "<p>" ++ t ++ text "</p>"]
  end.

Definition render_blocks (bs : list block) : str :=
  join [LF] (concat (map render_block bs)).

(** ** Predicates used in the statements *)

(** Lock entries are copies of a selection made in the list of paths, and
    [toggle_lock_selected] refuses the empty selection. *)
Definition locks_wf (st : state) : Prop := [] ∉ locked_paths st.

(** [g] is the outermost locked path among [p] and its ancestors: the first
    member of the lock set met when the prefixes of [p] are read from one
    part up to all of them. *)
Definition governing (locked : gset str) (p g : str) : Prop :=
  exists i : nat,
    ancestor_candidates p !! i = Some g
    /\ g ∈ locked
    /\ forall (j : nat) (c : str),
         (j < i)%nat -> ancestor_candidates p !! j = Some c -> c ∉ locked.

(** Every locked path resolves to a node of the tree. *)
Definition locks_resolve (st : state) : Prop :=
  forall q, q ∈ locked_paths st -> is_Some (get_item_data (accordion_data st) q).

(** The entries at the indices [i] and [i + 1] trade places; every other
    entry stays where it is. *)
Definition swap_adjacent {A} (i : nat) (l : list A) : list A :=
  match drop i l with
  | a :: b :: rest => take i l ++ b :: a :: rest
  | _ => l
  end.

(** [prepend cur l] puts [cur] in front of the first piece of [l]. *)
Definition prepend (cur : str) (l : list str) : list str :=
  match l with
  | [] => []
  | x :: r => (cur ++ x) :: r
  end.

(** ** Export

    [generate_html] reads the file system through [os.path.exists] and
    [os.path.basename]; both are parameters here. The global list
    [images_to_copy] is threaded through the traversal: it is extended while
    the markup of a node is being built, before the sub-titles are visited. *)

Definition QUOTE : N := 34.
(** U+27A4, the arrow shown in front of a title *)
Definition ARROW : N := 10148.

(** [text] between double quotes *)
Definition quoted (s : str) : str := [QUOTE] ++ s ++ [QUOTE].

Section HtmlExport.
Variable path_exists : str -> bool.
Variable basename : str -> str.

(** the image part of one node: markup and the updated [images_to_copy] *)
Definition image_markup (title image : str) (images_to_copy : list str)
  : str * list str :=
  match image with
  | [] => ([], images_to_copy)
  | _ =>
      if path_exists image then
        (text "<img src=" ++ quoted (basename image)
           ++ text " alt=" ++ quoted (title ++ text " image")
           ++ text " class=" ++ quoted (text "acc-image") ++ text ">",
         if bool_decide (image ∈ images_to_copy) then images_to_copy
         else images_to_copy ++ [image])
      else
        (text "<p class=" ++ quoted (text "img-missing")
           ++ text ">Image not found: " ++ basename image ++ text "</p>",
         images_to_copy)
  end.

(** the f-string appended to [html] for one node *)
Definition item_markup (is_sub : bool) (title content_html image_html sub_html : str)
  : str :=
  let item_class := if is_sub then text "sub-accordion" else text "accordion-item" in
  let header_class :=
    if is_sub then text "sub-accordion-header" else text "accordion-header" in
  let content_class :=
    if is_sub then text "sub-accordion-content" else text "accordion-content" in
  let arrow_class := if is_sub then text "sub-arrow" else text "accordion-arrow" in
  [LF] ++ text "        <div class=" ++ quoted item_class ++ text ">"
  ++ [LF] ++ text "            <button class=" ++ quoted header_class
  ++ text " onclick=" ++ quoted (text "toggleAccordion(this.parentElement)")
  ++ text ">"
  ++ [LF] ++ text "                <span class=" ++ quoted arrow_class ++ text ">"
  ++ [ARROW] ++ text "</span>"
  ++ [LF] ++ text "                <span class=" ++ quoted (text "title-text")
  ++ text ">" ++ title ++ text "</span>"
  ++ [LF] ++ text "            </button>"
  ++ [LF] ++ text "            <div class=" ++ quoted content_class ++ text ">"
  ++ [LF] ++ text "                " ++ content_html
  ++ [LF] ++ text "                " ++ image_html
  ++ [LF] ++ text "                " ++ sub_html
  ++ [LF] ++ text "            </div>"
  ++ [LF] ++ text "        </div>".

(** [generate_html] on the sub-titles of a node; the recursive call is
    always made with [is_sub=True]. *)
Fixpoint generate_html_node (details : node) (images_to_copy : list str)
    {struct details} : str * list str :=
  match details with
  | Node _ _ subs =>
      (fix loop (data : dict) (html : str) (images_to_copy : list str)
         : str * list str :=
         match data with
         | [] => (html, images_to_copy)
         | (title, d) :: rest =>
             let content_html := content_to_html (content d) in
             let '(image_html, images_to_copy) :=
               image_markup title (image_path d) images_to_copy in
             let '(sub_html, images_to_copy) :=
               generate_html_node d images_to_copy in
             loop rest
               (html ++ item_markup true title content_html image_html sub_html)
               images_to_copy
         end) subs [] images_to_copy
  end.

(** [generate_html(data, is_sub)] with the list [images_to_copy] as it is
    when the call starts *)
Fixpoint generate_html_loop (is_sub : bool) (data : dict) (html : str)
    (images_to_copy : list str) : str * list str :=
  match data with
  | [] => (html, images_to_copy)
  | (title, d) :: rest =>
      let content_html := content_to_html (content d) in
      let '(image_html, images_to_copy) :=
        image_markup title (image_path d) images_to_copy in
      let '(sub_html, images_to_copy) := generate_html_node d images_to_copy in
      generate_html_loop is_sub rest
        (html ++ item_markup is_sub title content_html image_html sub_html)
        images_to_copy
  end.

Definition generate_html (data : dict) (is_sub : bool) (images_to_copy : list str)
  : str * list str :=
  generate_html_loop is_sub data [] images_to_copy.

(** The part of [save_html] before the file dialog: the list is emptied and
    the whole tree is rendered. *)
Definition export_images (data : dict) : list str :=
  snd (generate_html data false []).
End HtmlExport.

(** ** Well-formed trees *)

(** Sibling titles are distinct in the children of [n] and below. *)
Fixpoint titles_unique_node (n : node) : bool :=
  match n with
  | Node _ _ subs =>
      bool_decide (NoDup (keys subs))
      && (fix all (d : dict) : bool :=
            match d with
            | [] => true
            | (_, v) :: rest => titles_unique_node v && all rest
            end) subs
  end.

(** Sibling titles are distinct at every level of the tree. *)
Definition titles_unique (d : dict) : bool := titles_unique_node (Node [] [] d).

(** The images attached to the nodes of a tree, parents before children,
    in display order. *)
Fixpoint node_images (n : node) : list str :=
  match n with
  | Node _ _ subs =>
      (fix all (d : dict) : list str :=
         match d with
         | [] => []
         | (_, v) :: rest => image_path v :: node_images v ++ all rest
         end) subs
  end.

Definition tree_images (d : dict) : list str := node_images (Node [] [] d).

(** A title that is not empty and has no [>] in it. *)
Definition plain_title (k : str) : bool :=
  negb (bool_decide (k = [])) && negb (bool_decide (62 ∈ k)).

(** Every title below [n] is plain. *)
Fixpoint titles_plain_node (n : node) : bool :=
  match n with
  | Node _ _ subs =>
      (fix all (d : dict) : bool :=
         match d with
         | [] => true
         | (k, v) :: rest => plain_title k && titles_plain_node v && all rest
         end) subs
  end.

Definition titles_plain (d : dict) : bool := titles_plain_node (Node [] [] d).

(** How a traversal extends [images_to_copy]: the old entries stay in front,
    no duplicate is introduced, and the new list holds, besides the old
    entries, exactly the candidates that are non-empty and exist on disk. *)
Definition collects (path_exists : str -> bool)
    (before after candidates : list str) : Prop :=
  (NoDup before -> NoDup after)
  /\ before `prefix_of` after
  /\ forall i, i ∈ after
               <-> i ∈ before \/ (i ∈ candidates /\ i <> [] /\ path_exists i = true).

(** ** Sample data *)

Definition shopping_note : str :=
  text "- buy milk" ++ [LF] ++ text "* buy eggs" ++ [LF] ++ text "Note: also bread".

Definition shopping_note_normalized : str :=
  BULLET :: text " buy milk" ++ [LF] ++ BULLET :: text " buy eggs" ++ [LF]
    ++ text "Note: also bread".

Definition shopping_note_html : str :=
  text "<ul>" ++ [LF] ++ text "<li>buy milk</li>" ++ [LF]
    ++ text "<li>buy eggs</li>" ++ [LF] ++ text "</ul>" ++ [LF]
    ++ text "<p>Note: also bread</p>".

Definition leaf (c : string) : node := Node (text c) [] [].

(** [A] with the children [B], [C], [D], followed by [E] *)
Definition sample_children : dict :=
  [(text "B", leaf "b"); (text "C", leaf "c"); (text "D", leaf "d")].

Definition sample_node : node := Node (text "a") (text "a.png") sample_children.

Definition sample_tree : dict := [(text "A", sample_node); (text "E", leaf "e")].

(** nothing locked, the given path selected *)
Definition sample_state (selection : str) : state :=
  State sample_tree selection [] ∅.


(** [A > B] is locked, [A] is selected *)
Definition sample_child_locked_state : state :=
  State sample_tree (text "A") [] {[ text "A > B" ]}.

(** * Properties *)

(** ** Strings *)

Lemma lstrip_keeps c s : is_space c = false -> lstrip (c :: s) = c :: s.
Proof. intros Hc. simpl. by rewrite Hc. Qed.

Lemma lstrip_head s :
  lstrip s = [] \/ exists c t, lstrip s = c :: t /\ is_space c = false.
Proof.
  induction s as [|c s IH]; simpl; [by left|].
  destruct (is_space c) eqn:Hc; [exact IH|].
  right. by exists c, s.
Qed.

Lemma rstrip_head c s :
  is_space c = false -> exists t, rstrip (c :: s) = c :: t.
Proof.
  intros Hc. simpl. destruct (rstrip s) as [|r0 r].
  - rewrite Hc. by exists [].
  - by exists (r0 :: r).
Qed.

Lemma rstrip_rstrip s : rstrip (rstrip s) = rstrip s.
Proof.
  induction s as [|c s IH]; [done|].
  simpl. destruct (rstrip s) as [|r0 r] eqn:Hr.
  - destruct (is_space c) eqn:Hc; [done|]. simpl. by rewrite Hc.
  - change (rstrip (c :: r0 :: r)) with
      (match rstrip (r0 :: r) with
       | [] => if is_space c then [] else [c]
       | x :: y => c :: x :: y
       end).
    by rewrite IH.
Qed.

Lemma strip_head s :
  strip s = [] \/ exists c t, strip s = c :: t /\ is_space c = false.
Proof.
  unfold strip. destruct (lstrip_head s) as [->|(c & t & -> & Hc)]; [by left|].
  right. destruct (rstrip_head c t Hc) as [t' Ht']. by exists c, t'.
Qed.

Lemma strip_strip s : strip (strip s) = strip s.
Proof.
  unfold strip at 2 3.
  destruct (lstrip_head s) as [->|(c & t & -> & Hc)]; [done|].
  destruct (rstrip_head c t Hc) as [t' Ht'].
  unfold strip. rewrite Ht', (lstrip_keeps _ _ Hc), <- Ht'.
  apply rstrip_rstrip.
Qed.

Lemma lstrip_subset s x : x ∈ lstrip s -> x ∈ s.
Proof.
  induction s as [|c s IH]; simpl; [done|].
  destruct (is_space c); [|done]. intros H. right. by apply IH.
Qed.

Lemma rstrip_subset s x : x ∈ rstrip s -> x ∈ s.
Proof.
  revert x. induction s as [|c s IH]; simpl; [done|]. intros x.
  destruct (rstrip s) as [|r0 r].
  - destruct (is_space c); [by intros ?%elem_of_nil|].
    intros ->%list_elem_of_singleton. by left.
  - intros [->|H]%elem_of_cons; [by left|]. right. by apply IH.
Qed.

Lemma strip_subset s x : x ∈ strip s -> x ∈ s.
Proof. intros H. by apply lstrip_subset, rstrip_subset. Qed.

(** *** [split] and [join] on the line separator *)

Lemma split_from_line cur x t :
  LF ∉ x ->
  split_from [LF] 0 cur (x ++ LF :: t) = (cur ++ x) :: split_from [LF] 0 [] t.
Proof.
  revert cur. induction x as [|c x IH]; intros cur Hx.
  - simpl. by rewrite app_nil_r.
  - apply not_elem_of_cons in Hx as [Hc Hx].
    change (split_from [LF] 0 cur ((c :: x) ++ LF :: t)) with
      (if (LF =? c) && true
       then cur :: split_from [LF] 0 [] (x ++ LF :: t)
       else split_from [LF] 0 (cur ++ [c]) (x ++ LF :: t)).
    destruct (N.eqb_spec LF c) as [E|_]; [by destruct Hc|]. simpl.
    rewrite IH by done. by rewrite <- app_assoc.
Qed.

Lemma split_from_last_line cur x :
  LF ∉ x -> split_from [LF] 0 cur x = [cur ++ x].
Proof.
  revert cur. induction x as [|c x IH]; intros cur Hx.
  - simpl. by rewrite app_nil_r.
  - apply not_elem_of_cons in Hx as [Hc Hx].
    change (split_from [LF] 0 cur (c :: x)) with
      (if (LF =? c) && true
       then cur :: split_from [LF] 0 [] x
       else split_from [LF] 0 (cur ++ [c]) x).
    destruct (N.eqb_spec LF c) as [E|_]; [by destruct Hc|]. simpl.
    rewrite IH by done. by rewrite <- app_assoc.
Qed.

Lemma split_join_lines (ls : list str) :
  ls <> [] -> Forall (fun l => LF ∉ l) ls -> split [LF] (join [LF] ls) = ls.
Proof.
  intros Hne Hls. induction Hls as [|x ls Hx Hls IH]; [done|].
  destruct ls as [|y ls].
  - simpl. by apply split_from_last_line.
  - change (join [LF] (x :: y :: ls)) with (x ++ LF :: join [LF] (y :: ls)).
    unfold split. rewrite split_from_line by done.
    f_equal. by apply IH.
Qed.

Lemma split_from_lines_no_lf cur s :
  LF ∉ cur -> Forall (fun l => LF ∉ l) (split_from [LF] 0 cur s).
Proof.
  revert cur. induction s as [|c s IH]; intros cur Hcur.
  - by constructor.
  - change (split_from [LF] 0 cur (c :: s)) with
      (if (LF =? c) && true
       then cur :: split_from [LF] 0 [] s
       else split_from [LF] 0 (cur ++ [c]) s).
    destruct (N.eqb_spec LF c) as [E|Hc]; simpl.
    + constructor; [done|]. apply IH. by intros ?%elem_of_nil.
    + apply IH. rewrite elem_of_app, list_elem_of_singleton. by intros [?|?].
Qed.

Lemma split_lines_no_lf s : Forall (fun l => LF ∉ l) (split [LF] s).
Proof. apply split_from_lines_no_lf. by intros ?%elem_of_nil. Qed.

Lemma split_from_nonempty sep skip cur s : split_from sep skip cur s <> [].
Proof.
  revert skip cur. induction s as [|c s IH]; intros skip cur; simpl; [done|].
  destruct skip; [|apply IH]. destruct (starts_with sep (c :: s)); [done|apply IH].
Qed.

(** ** The bullet pattern *)

Section RegexLemmas.
Variable p : N -> bool.
Variable k : str -> option str.
Hypothesis k_suffix : forall s r, k s = Some r -> r `suffix_of` s.

Lemma re_class_suffix s r : re_class p k s = Some r -> r `suffix_of` s.
Proof.
  destruct s as [|c s]; simpl; [done|].
  destruct (p c); [|done]. intros H%k_suffix. by apply suffix_cons_r.
Qed.

Lemma re_star_suffix s r : re_star p k s = Some r -> r `suffix_of` s.
Proof.
  induction s as [|c s IH]; simpl; [apply k_suffix|].
  destruct (p c); [|apply k_suffix].
  destruct (re_star p k s) as [r'|] eqn:Hs; [|apply k_suffix].
  intros [= ->]. by apply suffix_cons_r, IH.
Qed.

Lemma re_plus_suffix s r : re_plus p k s = Some r -> r `suffix_of` s.
Proof.
  destruct s as [|c s]; simpl; [done|].
  destruct (p c); [|done]. intros H%re_star_suffix. by apply suffix_cons_r.
Qed.
End RegexLemmas.

Lemma bullet_start_regex_match_suffix ln r :
  bullet_start_regex_match ln = Some r -> r `suffix_of` ln.
Proof.
  assert (Hsome : forall s r : str, Some s = Some r -> r `suffix_of` s)
    by (by intros s r' [= ->]).
  apply re_star_suffix. intros s r'.
  destruct (re_class is_bullet_mark (re_plus is_space Some) s) as [r''|] eqn:H1.
  - intros [= ->]. revert H1. by apply re_class_suffix, re_plus_suffix.
  - by apply re_plus_suffix, re_class_suffix, re_plus_suffix.
Qed.

(** A line the normalizer has produced matches the pattern again, and the
    match is exactly the bullet and the space that were put in front. *)
Lemma bullet_start_regex_match_normalized c :
  strip c = c -> bullet_start_regex_match (BULLET :: SPACE :: c) = Some c.
Proof.
  intros Hc. destruct (strip_head c) as [Hn|(x & t & Hx & Hs)]; rewrite Hc in *.
  - by subst.
  - subst c. unfold bullet_start_regex_match. simpl. by rewrite Hs.
Qed.

Lemma normalize_line_idempotent ln :
  normalize_line (normalize_line ln) = normalize_line ln.
Proof.
  unfold normalize_line at 2 3, bullet_start_regex_sub_empty.
  destruct (bullet_start_regex_match ln) as [r|] eqn:Hm.
  - unfold normalize_line, bullet_start_regex_sub_empty.
    rewrite bullet_start_regex_match_normalized by apply strip_strip.
    by rewrite strip_strip.
  - unfold normalize_line. by rewrite Hm.
Qed.

Lemma normalize_line_no_lf ln : LF ∉ ln -> LF ∉ normalize_line ln.
Proof.
  intros Hln. unfold normalize_line, bullet_start_regex_sub_empty.
  destruct (bullet_start_regex_match ln) as [r|] eqn:Hm; [|done].
  apply bullet_start_regex_match_suffix in Hm as [pre ->].
  intros [?|[?|H%strip_subset]%elem_of_cons]%elem_of_cons; [done..|].
  apply Hln, elem_of_app. by right.
Qed.

(** C3. [normalize_universal_bullets] is idempotent: normalizing a text that
    is already normalized returns it unchanged, for every input text. *)
Theorem normalize_universal_bullets_idempotent (x : str) :
  normalize_universal_bullets (normalize_universal_bullets x)
  = normalize_universal_bullets x.
Proof.
  unfold normalize_universal_bullets.
  rewrite split_join_lines.
  - rewrite <- list_fmap_compose. f_equal.
    apply list_fmap_ext. intros _ ln _. apply normalize_line_idempotent.
  - intros H%fmap_nil_inv. by apply split_from_nonempty in H.
  - apply Forall_fmap. eapply Forall_impl; [apply split_lines_no_lf|].
    intros ln. apply normalize_line_no_lf.
Qed.

(** ** Conversion to markup *)

Lemma flush_list_blocks blocks pending :
  flush_list (concat (map render_block blocks), pending)
  = (concat (map render_block (blocks ++ spec_flush pending)), []).
Proof.
  destruct pending as [|i pending]; simpl.
  - by rewrite app_nil_r.
  - rewrite fmap_app, concat_app. simpl. by rewrite app_nil_r.
Qed.

Lemma html_step_blocks blocks pending ln :
  html_step (concat (map render_block blocks), pending) ln
  = (concat (map render_block (fst (spec_fragment_step (blocks, pending) ln))),
     snd (spec_fragment_step (blocks, pending) ln)).
Proof.
  unfold html_step, spec_fragment_step.
  destruct (starts_with [BULLET; SPACE] ln); [done|].
  rewrite flush_list_blocks.
  destruct (bool_decide (strip ln = [])); [done|].
  simpl. rewrite !fmap_app, !concat_app. simpl. by rewrite ?app_nil_r.
Qed.

Lemma html_fold_blocks lines blocks pending :
  foldl html_step (concat (map render_block blocks), pending) lines
  = (concat (map render_block
               (fst (foldl spec_fragment_step (blocks, pending) lines))),
     snd (foldl spec_fragment_step (blocks, pending) lines)).
Proof.
  revert blocks pending. induction lines as [|ln lines IH]; intros blocks pending.
  - done.
  - cbn [foldl]. rewrite html_step_blocks.
    destruct (spec_fragment_step (blocks, pending) ln) as [b' p'] eqn:Hs.
    apply IH.
Qed.

(** The markup text written by [content_to_html] is the rendering of the
    typed blocks of the specification, for every non-blank content. *)
Lemma content_to_html_blocks c :
  strip c <> [] ->
  content_to_html c = render_blocks (spec_to_markup_fragments (strip c)).
Proof.
  intros Hc. unfold content_to_html, spec_to_markup_fragments, render_blocks.
  destruct (strip c) as [|c0 c'] eqn:Hs; [done|].
  change (foldl html_step ([], []))
    with (foldl html_step (concat (map render_block []), [])).
  rewrite html_fold_blocks.
  destruct (foldl spec_fragment_step ([], []) (split [LF] (c0 :: c')))
    as [blocks pending].
  cbn [fst snd]. by rewrite flush_list_blocks.
Qed.

(** C8. The text ["- buy milk\n* buy eggs\nNote: also bread"] normalizes to
    ["• buy milk\n• buy eggs\nNote: also bread"]; converting the normalized
    text gives one list with the items ["buy milk"] and ["buy eggs"] followed
    by one paragraph ["Note: also bread"], both as typed blocks and in the
    markup text that [content_to_html] writes. *)
Theorem shopping_note_example :
  normalize_universal_bullets shopping_note = shopping_note_normalized
  /\ spec_to_markup_fragments shopping_note_normalized
     = [ListBlock [text "buy milk"; text "buy eggs"];
        Paragraph (text "Note: also bread")]
  /\ content_to_html shopping_note_normalized
     = render_blocks [ListBlock [text "buy milk"; text "buy eggs"];
                      Paragraph (text "Note: also bread")]
  /\ content_to_html shopping_note_normalized = shopping_note_html.
Proof. repeat split; vm_compute; reflexivity. Qed.

(** ** Ordered dictionaries *)

Lemma str_eqb_eq a b : str_eqb a b = true <-> a = b.
Proof. unfold str_eqb. by rewrite bool_decide_eq_true. Qed.

Lemma str_eqb_refl a : str_eqb a a = true.
Proof. by apply str_eqb_eq. Qed.

Lemma str_eqb_neq a b : a <> b -> str_eqb a b = false.
Proof. unfold str_eqb. by rewrite bool_decide_eq_false. Qed.

Ltac case_key k k' :=
  let E := fresh "E" in
  destruct (decide (k = k')) as [E|E];
  [ try subst; rewrite ?str_eqb_refl in *
  | rewrite ?(str_eqb_neq _ _ E) in * ].

Section Dict.
Implicit Types (d : dict) (k : str) (v : node).

Lemma existsb_str_eqb k (ks : list str) :
  existsb (str_eqb k) ks = true <-> k ∈ ks.
Proof.
  rewrite existsb_exists, list_elem_of_In. split.
  - by intros (x & Hx & ->%str_eqb_eq).
  - intros Hk. exists k. split; [done|apply str_eqb_refl].
Qed.

Lemma dict_mem_keys k d : dict_mem k d = true <-> k ∈ keys d.
Proof. apply existsb_str_eqb. Qed.

Lemma dict_mem_false k d : dict_mem k d = false <-> k ∉ keys d.
Proof. rewrite <- dict_mem_keys. by destruct (dict_mem k d). Qed.

Lemma dict_get_None k d : dict_get k d = None <-> k ∉ keys d.
Proof.
  induction d as [|[k' v'] d IH]; simpl.
  - split; [by intros _ ?%elem_of_nil|done].
  - rewrite not_elem_of_cons. case_key k k'.
    + split; [done|by intros [? _]].
    + rewrite IH. split; [by intros ?|by intros [_ ?]].
Qed.

Lemma dict_get_Some_mem k d v : dict_get k d = Some v -> dict_mem k d = true.
Proof.
  intros Hg. destruct (dict_mem k d) eqn:Hm; [done|].
  apply dict_mem_false, dict_get_None in Hm. congruence.
Qed.

Lemma dict_mem_get k d : dict_mem k d = true -> exists v, dict_get k d = Some v.
Proof.
  intros Hm. destruct (dict_get k d) as [v|] eqn:Hg; [by exists v|].
  apply dict_get_None, dict_mem_false in Hg. congruence.
Qed.

Lemma keys_dict_alter f k d : keys (dict_alter f k d) = keys d.
Proof.
  induction d as [|[k' v'] d IH]; simpl; [done|].
  case_key k k'; simpl; [done|]. by rewrite IH.
Qed.

Lemma dict_get_alter f k d : dict_get k (dict_alter f k d) = f <$> dict_get k d.
Proof.
  induction d as [|[k' v'] d IH]; simpl; [done|].
  case_key k k'; simpl; rewrite ?str_eqb_refl; [done|].
  by rewrite (str_eqb_neq _ _ E).
Qed.

Lemma dict_get_alter_ne f k k' d :
  k <> k' -> dict_get k (dict_alter f k' d) = dict_get k d.
Proof.
  intros Hne. induction d as [|[k0 v0] d IH]; simpl; [done|].
  case_key k' k0; simpl.
  - by rewrite (str_eqb_neq _ _ Hne).
  - case_key k k0; [done|exact IH].
Qed.

Lemma dict_set_fresh k v d : k ∉ keys d -> dict_set k v d = d ++ [(k, v)].
Proof.
  induction d as [|[k' v'] d IH]; simpl; [done|].
  intros [Hk Hd]%not_elem_of_cons. rewrite (str_eqb_neq _ _ Hk).
  by rewrite IH.
Qed.

Lemma dict_get_set_ne k k' v d :
  k <> k' -> dict_get k (dict_set k' v d) = dict_get k d.
Proof.
  intros Hne. induction d as [|[k0 v0] d IH]; simpl.
  - by rewrite (str_eqb_neq _ _ Hne).
  - case_key k' k0; simpl.
    + by rewrite (str_eqb_neq _ _ Hne).
    + case_key k k0; [done|exact IH].
Qed.

Lemma dict_get_app_l k d d' v :
  dict_get k d = Some v -> dict_get k (d ++ d') = Some v.
Proof.
  induction d as [|[k0 v0] d IH]; simpl; [done|].
  case_key k k0; [done|exact IH].
Qed.

Lemma dict_get_app_r k d d' :
  k ∉ keys d -> dict_get k (d ++ d') = dict_get k d'.
Proof.
  induction d as [|[k0 v0] d IH]; simpl; [done|].
  intros [Hk Hd]%not_elem_of_cons. rewrite (str_eqb_neq _ _ Hk). by apply IH.
Qed.

Lemma keys_dict_del_subset k k' d : k ∈ keys (dict_del k' d) -> k ∈ keys d.
Proof.
  induction d as [|[k0 v0] d IH]; simpl; [done|].
  case_key k' k0; simpl.
  - intros H. by right.
  - intros [->|H]%elem_of_cons; [by left|]. right. by apply IH.
Qed.

Lemma dict_del_absent k d :
  NoDup (keys d) -> k ∉ keys (dict_del k d).
Proof.
  induction d as [|[k0 v0] d IH]; simpl.
  - by intros _ ?%elem_of_nil.
  - intros [Hk0 Hd]%NoDup_cons. case_key k k0; simpl; [done|].
    apply not_elem_of_cons. split; [done|by apply IH].
Qed.

(** With distinct keys, the entry found for a key is the entry stored
    under it, wherever it stands. *)
Lemma dict_get_elem k v d :
  NoDup (keys d) -> (k, v) ∈ d -> dict_get k d = Some v.
Proof.
  induction d as [|[k0 v0] d IH]; simpl; [by intros _ ?%elem_of_nil|].
  intros [Hk0 Hd]%NoDup_cons [[= -> ->]|Hin]%elem_of_cons.
  - by rewrite str_eqb_refl.
  - case_key k k0; [|by apply IH].
    destruct Hk0. apply list_elem_of_fmap. by exists (k0, v).
Qed.

Lemma dict_alter_split f k v (l1 l2 : dict) :
  k ∉ keys l1 ->
  dict_alter f k (l1 ++ (k, v) :: l2) = l1 ++ (k, f v) :: l2.
Proof.
  induction l1 as [|[k0 v0] l1 IH]; simpl.
  - by rewrite str_eqb_refl.
  - intros [Hk Hl]%not_elem_of_cons. rewrite (str_eqb_neq _ _ Hk).
    by rewrite IH.
Qed.

Lemma dict_del_split k v (l1 l2 : dict) :
  k ∉ keys l1 -> dict_del k (l1 ++ (k, v) :: l2) = l1 ++ l2.
Proof.
  induction l1 as [|[k0 v0] l1 IH]; simpl.
  - by rewrite str_eqb_refl.
  - intros [Hk Hl]%not_elem_of_cons. rewrite (str_eqb_neq _ _ Hk).
    by rewrite IH.
Qed.

Lemma index_of_split k (l1 l2 : list str) :
  k ∉ l1 -> index_of k (l1 ++ k :: l2) = length l1.
Proof.
  induction l1 as [|k0 l1 IH]; simpl.
  - by rewrite str_eqb_refl.
  - intros [Hk Hl]%not_elem_of_cons. rewrite (str_eqb_neq _ _ Hk).
    by rewrite IH.
Qed.

(** Clearing a dictionary and storing items with distinct keys one after
    the other yields exactly those items, in that order. *)
Lemma dict_rebuild_from (acc items : dict) :
  NoDup (keys (acc ++ items)) ->
  foldl (fun d kv => dict_set (fst kv) (snd kv) d) acc items = acc ++ items.
Proof.
  revert acc. induction items as [|[k v] items IH]; intros acc Hnd.
  - by rewrite app_nil_r.
  - cbn [foldl fst snd]. rewrite dict_set_fresh.
    + rewrite IH; rewrite <- app_assoc; done.
    + unfold keys in Hnd. rewrite fmap_app in Hnd.
      apply NoDup_app in Hnd as (_ & Hdisj & _).
      intros Hk. apply (Hdisj k Hk). by left.
Qed.

Lemma dict_rebuild_distinct (items : dict) :
  NoDup (keys items) -> dict_rebuild items = items.
Proof. intros Hnd. unfold dict_rebuild. by rewrite dict_rebuild_from. Qed.

Lemma reordered_items_elems d (items : dict) :
  NoDup (keys d) -> items ⊆ d -> reordered_items d (keys items) = Some items.
Proof.
  intros Hnd Hsub. unfold reordered_items. apply mapM_Some.
  unfold keys. apply Forall2_fmap_l, Forall_Forall2_diag, Forall_forall.
  intros [k v] Hin. simpl. rewrite (dict_get_elem k v d); [done..|].
  by apply Hsub.
Qed.
End Dict.

(** ** Paths into the tree *)

Lemma descend_app (a b : list str) (d : dict) :
  descend (a ++ b) d = descend a d ≫= descend b.
Proof.
  revert d. induction a as [|k a IH]; intros d; simpl; [done|].
  destruct (dict_get k d); [apply IH|done].
Qed.

(** After a mutation of the dictionary that a path reaches, the same path
    reaches the mutated dictionary. *)
Lemma descend_modify_at (ps : list str) f (d x : dict) :
  descend ps d = Some x -> descend ps (modify_at ps f d) = Some (f x).
Proof.
  revert d. induction ps as [|k ps IH]; intros d; simpl.
  - by intros [= ->].
  - rewrite dict_get_alter. destruct (dict_get k d) as [n|]; [|done].
    simpl. apply IH.
Qed.

Lemma init_last_parts (parts : list str) :
  parts <> [] -> init_parts parts ++ [last_part parts] = parts.
Proof. intros H. symmetry. by apply app_removelast_last. Qed.

(** ** The lock guard *)

Lemma find_first {A} (P : A -> bool) (l : list A) x :
  List.find P l = Some x ->
  exists i : nat, l !! i = Some x /\ P x = true
    /\ forall (j : nat) y, (j < i)%nat -> l !! j = Some y -> P y = false.
Proof.
  induction l as [|a l IH]; simpl; [done|].
  destruct (P a) eqn:Ha.
  - intros [= ->]. exists 0%nat. repeat split; [done|]. intros j y Hj. lia.
  - intros (i & Hi & Hx & Hlt)%IH. exists (S i). repeat split; [done..|].
    intros [|j] y Hj; simpl; [by intros [= <-]|]. apply Hlt. lia.
Qed.

Lemma find_some_elem {A} (P : A -> bool) (l : list A) q :
  q ∈ l -> P q = true -> exists x, List.find P l = Some x.
Proof.
  induction 1 as [q l|q a l _ IH]; simpl; intros Hq.
  - rewrite Hq. by eexists.
  - destruct (P a); [by eexists|by apply IH].
Qed.

Lemma any_ancestor_locked_governing locked p g :
  any_ancestor_locked locked p = Some g -> governing locked p g.
Proof.
  intros (i & Hi & Hg & Hlt)%find_first. exists i.
  split; [done|]. split; [by apply bool_decide_eq_true in Hg|].
  intros j c Hj Hc. by apply (bool_decide_eq_false (c ∈ locked)), (Hlt j).
Qed.


Lemma ancestor_candidates_lookup p (i : nat) :
  (i < length (split SEP p))%nat ->
  ancestor_candidates p !! i = Some (join SEP (take (S i) (split SEP p))).
Proof.
  intros Hi. unfold ancestor_candidates.
  rewrite list_lookup_fmap, lookup_seq_lt by done. done.
Qed.

Lemma ancestor_candidates_length p :
  length (ancestor_candidates p) = length (split SEP p).
Proof. unfold ancestor_candidates. by rewrite length_fmap, length_seq. Qed.

(** A locked prefix makes the guard fire with the governing path. *)
Lemma guard_fires st q :
  locks_wf st ->
  q ∈ ancestor_candidates (current_selection st) ->
  q ∈ locked_paths st ->
  exists g,
    any_ancestor_locked (locked_paths st) (current_selection st) = Some g
    /\ g <> [] /\ current_selection st <> [].
Proof.
  intros Hwf Hq Hl.
  destruct (find_some_elem (fun c => bool_decide (c ∈ locked_paths st)) _ q Hq)
    as [g Hg]; [by apply bool_decide_eq_true|].
  exists g. split; [done|].
  apply any_ancestor_locked_governing in Hg as Hgov.
  destruct Hgov as (i & Hi & Hin & _).
  split; [by intros ->|].
  intros Hsel. rewrite Hsel in Hq.
  apply list_elem_of_singleton in Hq as ->. done.
Qed.



(** ** The lock set under tree mutations *)

Lemma update_structure_display_locks sel st :
  locked_paths (update_structure_display sel st) = locked_paths st.
Proof.
  unfold update_structure_display. destruct sel as [[|c p]|]; try done.
  by case_bool_decide.
Qed.

Lemma update_structure_display_data sel st :
  accordion_data (update_structure_display sel st) = accordion_data st.
Proof.
  unfold update_structure_display. destruct sel as [[|c p]|]; try done.
  by case_bool_decide.
Qed.

Ltac split_action :=
  repeat first
    [ progress cbn [fst snd locked_paths with_data with_selection with_image
                    with_locks clear_inputs]
    | rewrite update_structure_display_locks
    | done
    | case_match ].

Lemma save_changes_locks title_entry content_text st :
  locked_paths (snd (save_changes title_entry content_text st)) = locked_paths st.
Proof. unfold save_changes. split_action. Qed.

Lemma delete_item_locks confirm st :
  locked_paths (snd (delete_item confirm st)) = locked_paths st.
Proof. unfold delete_item. split_action. Qed.

Lemma move_item_locks direction st :
  locked_paths (snd (move_item direction st)) = locked_paths st.
Proof. unfold move_item. split_action. Qed.

Lemma change_path_locks new_path st :
  locked_paths (snd (change_path new_path st)) = locked_paths st.
Proof. unfold change_path. split_action. Qed.

Lemma add_title_locks title_entry content_text st :
  locked_paths (snd (add_title title_entry content_text st)) = locked_paths st.
Proof. unfold add_title. split_action. Qed.

Lemma add_subtitle_locks title_entry content_text st :
  locked_paths (snd (add_subtitle title_entry content_text st)) = locked_paths st.
Proof. unfold add_subtitle. split_action. Qed.

(** [locks_wf] holds initially and every action keeps it. *)
Lemma locks_wf_initial d : locks_wf (State d [] [] ∅).
Proof. unfold locks_wf. simpl. apply not_elem_of_empty. Qed.

Lemma toggle_lock_selected_wf st :
  locks_wf st -> locks_wf (snd (toggle_lock_selected st)).
Proof.
  unfold locks_wf, toggle_lock_selected. intros Hwf.
  destruct (current_selection st) as [|c sel] eqn:Hsel; [done|].
  cbn [snd]. rewrite update_structure_display_locks.
  case_bool_decide; cbn [locked_paths with_locks].
  - rewrite elem_of_difference. by intros [? _].
  - rewrite elem_of_union, elem_of_singleton. by intros [?|?].
Qed.

Lemma mutations_keep_locks_wf st title_entry content_text confirm direction new_path :
  locks_wf st ->
  locks_wf (snd (add_title title_entry content_text st))
  /\ locks_wf (snd (add_subtitle title_entry content_text st))
  /\ locks_wf (snd (save_changes title_entry content_text st))
  /\ locks_wf (snd (delete_item confirm st))
  /\ locks_wf (snd (move_item direction st))
  /\ locks_wf (snd (change_path new_path st)).
Proof.
  unfold locks_wf. intros Hwf.
  by rewrite add_title_locks, add_subtitle_locks, save_changes_locks,
    delete_item_locks, move_item_locks, change_path_locks.
Qed.

(** C1 (as the code has it). Deleting, renaming (saving with a new title)
    and relocating never touch the lock set: whatever the outcome, it is the
    same set as before the call, so entries for locked descendants of the
    node are neither removed nor rewritten. *)
Theorem tree_mutations_leave_lock_set
    (st : state) (title_entry content_text : str) (confirm : bool)
    (new_path : option str) :
  locked_paths (snd (delete_item confirm st)) = locked_paths st
  /\ locked_paths (snd (save_changes title_entry content_text st)) = locked_paths st
  /\ locked_paths (snd (change_path new_path st)) = locked_paths st.
Proof.
  split; [apply delete_item_locks|].
  split; [apply save_changes_locks|apply change_path_locks].
Qed.

(** With ["A > B"] locked, deleting ["A"] goes through and the entry
    ["A > B"] stays in the lock set although it no longer resolves;
    renaming ["A"] to ["Z"] and moving ["A"] under ["E"] likewise keep the
    entry ["A > B"] instead of rewriting it. *)
Lemma stale_lock_after_mutation :
  locks_resolve sample_child_locked_state
  /\ (let r := delete_item true sample_child_locked_state in
      fst r = Done
      /\ get_item_data (accordion_data (snd r)) (text "A") = None
      /\ text "A > B" ∈ locked_paths (snd r)
      /\ ~ locks_resolve (snd r))
  /\ (let r := save_changes (text "Z") (text "a") sample_child_locked_state in
      fst r = Done
      /\ is_Some (get_item_data (accordion_data (snd r)) (text "Z > B"))
      /\ (text "Z > B" ∉ locked_paths (snd r))
      /\ ~ locks_resolve (snd r))
  /\ (let r := change_path (Some (text "E > A")) sample_child_locked_state in
      fst r = Done
      /\ is_Some (get_item_data (accordion_data (snd r)) (text "E > A > B"))
      /\ (text "E > A > B" ∉ locked_paths (snd r))
      /\ ~ locks_resolve (snd r)).
Proof.
  assert (Hstale : forall r : outcome * state,
             locked_paths (snd r) = {[ text "A > B" ]} ->
             get_item_data (accordion_data (snd r)) (text "A > B") = None ->
             ~ locks_resolve (snd r)).
  { intros r Hl Hg Hres. specialize (Hres (text "A > B")).
    rewrite Hl, Hg in Hres. destruct Hres as [x Hx]; [by apply elem_of_singleton|done]. }
  assert (Hl0 : locked_paths sample_child_locked_state = {[ text "A > B" ]})
    by done.
  split.
  { intros q Hq. rewrite Hl0 in Hq. apply elem_of_singleton in Hq as ->.
    vm_compute. by eexists. }
  split; [|split]; cbv zeta.
  - split; [by vm_compute|]. split; [by vm_compute|].
    split; [rewrite delete_item_locks, Hl0; by apply elem_of_singleton_2|].
    apply Hstale; [apply delete_item_locks|by vm_compute].
  - split; [by vm_compute|]. split; [vm_compute; by eexists|].
    split; [rewrite save_changes_locks, Hl0; by intros ?%elem_of_singleton_1|].
    apply Hstale; [apply save_changes_locks|by vm_compute].
  - split; [by vm_compute|]. split; [vm_compute; by eexists|].
    split; [rewrite change_path_locks, Hl0; by intros ?%elem_of_singleton_1|].
    apply Hstale; [apply change_path_locks|by vm_compute].
Qed.

(** ** Resolving the selection *)

Lemma get_parent_dict_and_key_Some data p pp d key :
  get_parent_dict_and_key data p = Some (pp, d, key) ->
  p <> []
  /\ pp = init_parts (split SEP p)
  /\ key = last_part (split SEP p)
  /\ descend pp data = Some d
  /\ key ∈ keys d.
Proof.
  unfold get_parent_dict_and_key. destruct p as [|c p]; [done|].
  destruct (descend _ data) as [parent|] eqn:Hd; [|done].
  destruct (dict_mem _ parent) eqn:Hm; [|done].
  intros [= <- <- <-]. by apply dict_mem_keys in Hm.
Qed.

Lemma get_parent_dict_and_key_intro data p d :
  p <> [] ->
  descend (init_parts (split SEP p)) data = Some d ->
  last_part (split SEP p) ∈ keys d ->
  get_parent_dict_and_key data p
  = Some (init_parts (split SEP p), d, last_part (split SEP p)).
Proof.
  intros Hp Hd Hk. unfold get_parent_dict_and_key.
  destruct p as [|c p]; [done|]. rewrite Hd.
  apply dict_mem_keys in Hk. by rewrite Hk.
Qed.

Lemma dict_get_middle k v (l1 l2 : dict) :
  NoDup (keys (l1 ++ (k, v) :: l2)) -> dict_get k (l1 ++ (k, v) :: l2) = Some v.
Proof.
  intros Hnd. apply dict_get_elem; [done|].
  apply elem_of_app. right. by left.
Qed.

Lemma keys_middle k v (l1 l2 : dict) :
  keys (l1 ++ (k, v) :: l2) = keys l1 ++ k :: keys l2.
Proof. unfold keys. by rewrite fmap_app. Qed.

Lemma NoDup_keys_middle k v (l1 l2 : dict) :
  NoDup (keys (l1 ++ (k, v) :: l2)) ->
  (k ∉ keys l1) /\ (k ∉ keys l2) /\ NoDup (keys (l1 ++ l2)).
Proof.
  rewrite keys_middle. intros Hnd.
  apply NoDup_app in Hnd as (H1 & Hdisj & [Hk H2]%NoDup_cons).
  split; [|split; [done|]].
  - intros Hin. apply (Hdisj k Hin). by left.
  - unfold keys. rewrite fmap_app. apply NoDup_app. split; [done|].
    split; [|done]. intros x Hx Hx'. apply (Hdisj x Hx). by right.
Qed.

Lemma NoDup_keys_replace k k' v v' (l1 l2 : dict) :
  NoDup (keys (l1 ++ (k, v) :: l2)) ->
  k' = k \/ k' ∉ keys (l1 ++ (k, v) :: l2) ->
  NoDup (keys (l1 ++ (k', v') :: l2)).
Proof.
  rewrite !keys_middle. intros Hnd Hk'.
  apply NoDup_app in Hnd as (H1 & Hdisj & [Hk H2]%NoDup_cons).
  apply NoDup_app. split; [done|]. split.
  - intros x Hx [->|Hx']%elem_of_cons.
    + destruct Hk' as [->|Hk']; [apply (Hdisj k Hx); by left|].
      apply Hk'. apply elem_of_app. by left.
    + apply (Hdisj x Hx). by right.
  - apply NoDup_cons. split; [|done].
    destruct Hk' as [->|Hk']; [done|].
    intros Hin. apply Hk'. apply elem_of_app. right. by right.
Qed.

(** ** Saving an edit *)

Lemma renamed_items_middle new_title item' old_key (l1 l2 : dict) :
  NoDup (keys (l1 ++ (old_key, item') :: l2)) ->
  new_title ∉ keys (l1 ++ (old_key, item') :: l2) ->
  renamed_items new_title item' (l1 ++ (old_key, item') :: l2)
    (keys l1 ++ new_title :: keys l2)
  = Some (l1 ++ (new_title, item') :: l2).
Proof.
  intros Hnd Hnew. unfold renamed_items. apply mapM_Some.
  assert (Hside : forall l : dict,
             l ⊆ l1 ++ (old_key, item') :: l2 ->
             Forall2 (fun k y =>
                        (if str_eqb k new_title then Some (new_title, item')
                         else v ← dict_get k (l1 ++ (old_key, item') :: l2); Some (k, v))
                        = Some y) (keys l) l).
  { intros l Hl. unfold keys. apply Forall2_fmap_l, Forall_Forall2_diag, Forall_forall.
    intros [k v] Hin. unfold compose. cbn [fst].
    rewrite str_eqb_neq.
    - by rewrite (dict_get_elem k v) by (done || by apply Hl).
    - intros ->. apply Hnew, list_elem_of_fmap. exists (new_title, v).
      split; [done|by apply Hl]. }
  apply Forall2_app; [apply Hside|constructor; [|apply Hside]].
  - intros x Hx. apply elem_of_app. by left.
  - by rewrite str_eqb_refl.
  - intros x Hx. apply elem_of_app. right. by right.
Qed.

Lemma keys_insert_middle (l1 l2 : list str) k k' :
  <[length l1 := k']> (l1 ++ k :: l2) = l1 ++ k' :: l2.
Proof.
  rewrite insert_app_r_alt by lia. by rewrite Nat.sub_diag.
Qed.

Lemma dict_set_middle k v v' (l1 l2 : dict) :
  k ∉ keys l1 -> dict_set k v' (l1 ++ (k, v) :: l2) = l1 ++ (k, v') :: l2.
Proof.
  induction l1 as [|[k0 v0] l1 IH]; simpl.
  - by rewrite str_eqb_refl.
  - intros [Hk Hl]%not_elem_of_cons. rewrite (str_eqb_neq _ _ Hk).
    by rewrite IH.
Qed.

(** What [save_changes] does once the guard and the checks are passed: the
    entry of the selected node keeps its place, with the new title, the
    normalized content and the chosen image. *)
Lemma save_changes_done st title_entry content_text pp l1 l2 old_key item :
  truthy (any_ancestor_locked (locked_paths st) (current_selection st)) = false ->
  get_parent_dict_and_key (accordion_data st) (current_selection st)
  = Some (pp, l1 ++ (old_key, item) :: l2, old_key) ->
  NoDup (keys (l1 ++ (old_key, item) :: l2)) ->
  strip title_entry <> [] ->
  strip title_entry = old_key
  \/ strip title_entry ∉ keys (l1 ++ (old_key, item) :: l2) ->
  let r := save_changes title_entry content_text st in
  let item' :=
    Node (normalize_universal_bullets (strip content_text))
      (match selected_image_path st with
       | [] => image_path item
       | i => i
       end)
      (subtitles item) in
  fst r = Done
  /\ descend pp (accordion_data (snd r))
     = Some (l1 ++ (strip title_entry, item') :: l2).
Proof.
  intros Hlock Hget Hnd Hne Hnew r item'. subst r.
  pose proof (get_parent_dict_and_key_Some _ _ _ _ _ Hget)
    as (Hsel & Hpp & Hkey & Hdesc & Hin).
  pose proof (NoDup_keys_middle _ _ _ _ Hnd) as (Hk1 & Hk2 & Hnd').
  unfold save_changes.
  destruct (current_selection st) as [|c sel] eqn:Esel; [done|].
  rewrite Hlock, Hget, (dict_get_middle _ _ _ _ Hnd).
  fold item'.
  destruct (strip title_entry) as [|t0 t] eqn:Et; [done|].
  set (new_title := t0 :: t) in *.
  rewrite (dict_alter_split _ _ _ _ _ Hk1).
  destruct (decide (new_title = old_key)) as [Heq|Hneq].
  - rewrite Heq, str_eqb_refl. cbn [negb andb].
    cbn [fst snd]. rewrite update_structure_display_data.
    cbn [accordion_data with_data].
    split; [done|].
    erewrite descend_modify_at; [|by apply descend_modify_at].
    by rewrite (dict_alter_split _ _ _ _ _ Hk1), (dict_set_middle _ _ _ _ _ Hk1).
  - destruct Hnew as [?|Hnew]; [done|].
    rewrite (str_eqb_neq _ _ Hneq). cbn [negb andb].
    apply dict_mem_false in Hnew as Hmem. rewrite Hmem.
    rewrite keys_middle.
    assert (Hold : existsb (str_eqb old_key) (keys l1 ++ old_key :: keys l2) = true).
    { apply existsb_str_eqb, elem_of_app. right. by left. }
    rewrite Hold, (index_of_split _ _ _ Hk1).
    rewrite keys_insert_middle.
    rewrite renamed_items_middle.
    + cbn [fst snd]. rewrite update_structure_display_data.
      cbn [accordion_data with_data with_selection].
      split; [done|].
      erewrite descend_modify_at; [|by apply descend_modify_at].
      f_equal. apply dict_rebuild_distinct.
      apply (NoDup_keys_replace old_key new_title item); [done|by right].
    + apply (NoDup_keys_replace old_key old_key item); [done|by left].
    + by rewrite keys_middle in *.
Qed.

(** Closed decidable facts are settled by evaluation. *)
Ltac decide_by_compute := apply (bool_decide_unpack _); vm_compute; exact I.

Lemma save_changes_refused st title_entry content_text pp d old_key item :
  get_parent_dict_and_key (accordion_data st) (current_selection st)
  = Some (pp, d, old_key) ->
  dict_get old_key d = Some item ->
  truthy (any_ancestor_locked (locked_paths st) (current_selection st)) = true
  \/ strip title_entry = []
  \/ (strip title_entry <> old_key /\ strip title_entry ∈ keys d) ->
  snd (save_changes title_entry content_text st) = st
  /\ fst (save_changes title_entry content_text st) <> Done.
Proof.
  intros Hget Hitem Hcase.
  pose proof (get_parent_dict_and_key_Some _ _ _ _ _ Hget) as (Hsel & _).
  unfold save_changes.
  destruct (current_selection st) as [|c sel] eqn:Esel; [done|].
  destruct (truthy _) eqn:Hlock; [done|].
  rewrite Hget, Hitem.
  destruct Hcase as [?|[Hempty|[Hneq Hdup]]]; [done|by rewrite Hempty|].
  destruct (strip title_entry) as [|t0 t]; [done|].
  rewrite (str_eqb_neq _ _ Hneq). apply dict_mem_keys in Hdup.
  by rewrite Hdup.
Qed.

Lemma dict_get_split k v d :
  dict_get k d = Some v ->
  exists l1 l2, d = l1 ++ (k, v) :: l2 /\ k ∉ keys l1.
Proof.
  induction d as [|[k0 v0] d IH]; simpl; [done|].
  case_key k k0.
  - intros [= ->]. exists [], d. split; [done|]. by intros ?%elem_of_nil.
  - intros (l1 & l2 & -> & Hk)%IH. exists ((k0, v0) :: l1), l2.
    split; [done|]. simpl. apply not_elem_of_cons. by split.
Qed.

Lemma list_insert_middle {A} (l : list A) (k : nat) x y :
  l !! k = Some x -> <[k := y]> l = take k l ++ y :: drop (S k) l.
Proof.
  intros Hk. rewrite <- (take_drop_middle l k x Hk) at 1.
  assert (Hlen : length (take k l) = k).
  { apply length_take_le, Nat.lt_le_incl. by eapply lookup_lt_Some. }
  rewrite insert_app_r_alt by lia. by rewrite Hlen, Nat.sub_diag.
Qed.

(** C4. Renaming the [k]-th child of its parent through [save_changes]
    (new title non-empty, different from the old one and not taken by a
    sibling) succeeds, and the parent's children are the old ones with the
    [k]-th entry replaced: the renamed node stands at index [k] with its
    sub-tree, every other sibling keeps its index and its node. *)
Theorem save_changes_rename_keeps_index
    (st : state) (title_entry content_text : str)
    (pp : list str) (d : dict) (old_key : str) (item : node) (k : nat) :
  any_ancestor_locked (locked_paths st) (current_selection st) = None ->
  get_parent_dict_and_key (accordion_data st) (current_selection st)
  = Some (pp, d, old_key) ->
  NoDup (keys d) ->
  d !! k = Some (old_key, item) ->
  strip title_entry <> [] ->
  strip title_entry <> old_key ->
  strip title_entry ∉ keys d ->
  let r := save_changes title_entry content_text st in
  exists item',
    fst r = Done
    /\ subtitles item' = subtitles item
    /\ descend pp (accordion_data (snd r))
       = Some (<[k := (strip title_entry, item')]> d)
    /\ keys (<[k := (strip title_entry, item')]> d) !! k = Some (strip title_entry)
    /\ forall j : nat, j <> k ->
         (<[k := (strip title_entry, item')]> d) !! j = d !! j.
Proof.
  intros Hlock Hget Hnd Hk Hne Hneq Hfresh r.
  pose proof (take_drop_middle d k _ Hk) as Hd.
  rewrite <- Hd in Hget, Hnd, Hfresh.
  destruct (save_changes_done st title_entry content_text pp _ _ _ _
              ltac:(by rewrite Hlock) Hget Hnd Hne ltac:(by right))
    as [Hdone Hdesc].
  exists (Node (normalize_universal_bullets (strip content_text))
            (match selected_image_path st with
             | [] => image_path item
             | i => i
             end)
            (subtitles item)).
  split; [exact Hdone|]. split; [reflexivity|].
  rewrite (list_insert_middle d k _ _ Hk). split; [exact Hdesc|].
  rewrite <- (list_insert_middle d k _ _ Hk). split.
  - unfold keys. rewrite list_lookup_fmap, list_lookup_insert_eq; [done|].
    by eapply lookup_lt_Some.
  - intros j Hj. by rewrite list_lookup_insert_ne.
Qed.

Lemma save_changes_rename_keeps_index_witness :
  let r := save_changes (text " C2 ") (text "- new") (sample_state (text "A > C")) in
  exists item',
    fst r = Done
    /\ subtitles item' = subtitles (leaf "c")
    /\ descend [text "A"] (accordion_data (snd r))
       = Some (<[1%nat := (text "C2", item')]> sample_children)
    /\ keys (<[1%nat := (text "C2", item')]> sample_children) !! 1%nat
       = Some (text "C2")
    /\ forall j : nat, j <> 1%nat ->
         (<[1%nat := (text "C2", item')]> sample_children) !! j
         = sample_children !! j.
Proof.
  apply (save_changes_rename_keeps_index
           (sample_state (text "A > C")) (text " C2 ") (text "- new")
           [text "A"] sample_children (text "C") (leaf "c") 1).
  - reflexivity.
  - reflexivity.
  - decide_by_compute.
  - reflexivity.
  - vm_compute. discriminate.
  - vm_compute. discriminate.
  - decide_by_compute.
Defined.

(** C9. A save with no image selected keeps the image of the node: after
    the call, whatever its outcome, the parent still holds the node (under
    its old title, or under the new one when the save went through) with
    the [image_path] it had before. *)
Theorem save_changes_keeps_image
    (st : state) (title_entry content_text : str)
    (pp : list str) (d : dict) (old_key : str) (item : node) :
  get_parent_dict_and_key (accordion_data st) (current_selection st)
  = Some (pp, d, old_key) ->
  NoDup (keys d) ->
  dict_get old_key d = Some item ->
  selected_image_path st = [] ->
  let r := save_changes title_entry content_text st in
  exists d' key' item',
    descend pp (accordion_data (snd r)) = Some d'
    /\ dict_get key' d' = Some item'
    /\ image_path item' = image_path item
    /\ (fst r = Done /\ key' = strip title_entry
        \/ fst r <> Done /\ key' = old_key /\ item' = item).
Proof.
  intros Hget Hnd Hitem Himg r.
  pose proof (get_parent_dict_and_key_Some _ _ _ _ _ Hget)
    as (Hsel & Hpp & Hkey & Hdesc & Hin).
  assert (Hrefused : snd r = st /\ fst r <> Done ->
            exists d' key' item',
              descend pp (accordion_data (snd r)) = Some d'
              /\ dict_get key' d' = Some item'
              /\ image_path item' = image_path item
              /\ (fst r = Done /\ key' = strip title_entry
                  \/ fst r <> Done /\ key' = old_key /\ item' = item)).
  { intros [-> Hnot]. exists d, old_key, item. repeat split; try done. by right. }
  destruct (truthy (any_ancestor_locked (locked_paths st) (current_selection st)))
    eqn:Hlock.
  { apply Hrefused. eapply save_changes_refused; eauto. }
  destruct (decide (strip title_entry = [])) as [Hempty|Hne].
  { apply Hrefused. eapply save_changes_refused; eauto. }
  assert (Haccepted :
            strip title_entry = old_key \/ strip title_entry ∉ keys d ->
            exists d' key' item',
              descend pp (accordion_data (snd r)) = Some d'
              /\ dict_get key' d' = Some item'
              /\ image_path item' = image_path item
              /\ (fst r = Done /\ key' = strip title_entry
                  \/ fst r <> Done /\ key' = old_key /\ item' = item)).
  { intros Hnew.
    destruct (dict_get_split _ _ _ Hitem) as (l1 & l2 & -> & Hk1).
    destruct (save_changes_done st title_entry content_text pp l1 l2 old_key item
                Hlock Hget Hnd Hne Hnew) as [Hdone Hdesc'].
    eexists _, (strip title_entry), _.
    split; [exact Hdesc'|].
    split; [apply dict_get_middle;
            by apply (NoDup_keys_replace old_key _ item)|].
    split; [by rewrite Himg|by left]. }
  destruct (decide (strip title_entry = old_key)) as [Heq|Hneq];
    [apply Haccepted; by left|].
  destruct (decide (strip title_entry ∈ keys d)) as [Hdup|Hfresh];
    [|apply Haccepted; by right].
  apply Hrefused. eapply save_changes_refused; eauto.
Qed.

Lemma save_changes_keeps_image_witness :
  let r := save_changes (text "A") (text "changed") (sample_state (text "A")) in
  exists d' key' item',
    descend [] (accordion_data (snd r)) = Some d'
    /\ dict_get key' d' = Some item'
    /\ image_path item' = image_path sample_node
    /\ (fst r = Done /\ key' = strip (text "A")
        \/ fst r <> Done /\ key' = text "A" /\ item' = sample_node).
Proof.
  apply (save_changes_keeps_image
           (sample_state (text "A")) (text "A") (text "changed")
           [] sample_tree (text "A") sample_node).
  - reflexivity.
  - decide_by_compute.
  - reflexivity.
  - reflexivity.
Defined.

(** ** Moving among siblings *)

Section MoveItem.
Variable st : state.
Variables (d : dict).
Hypothesis Hsel : current_selection st <> [].
Hypothesis Hlock :
  truthy (any_ancestor_locked (locked_paths st) (current_selection st)) = false.
Hypothesis Hdesc :
  descend (init_parts (split SEP (current_selection st))) (accordion_data st)
  = Some d.
Hypothesis Hnd : NoDup (keys d).

Let key := last_part (split SEP (current_selection st)).
Let pp := init_parts (split SEP (current_selection st)).

Lemma get_siblings_selection :
  get_siblings (accordion_data st) (current_selection st)
  = (Some (pp, d), keys d).
Proof.
  unfold get_siblings. destruct (current_selection st); [done|].
  by rewrite Hdesc.
Qed.

Lemma move_item_reorders direction (idx new_index : nat) (d' : dict) :
  key ∈ keys d ->
  index_of key (keys d) = idx ->
  (if str_eqb direction (text "up") then
     if bool_decide (idx = 0%nat) then inl AlreadyAtBoundary
     else inr (idx - 1)%nat
   else if str_eqb direction (text "down") then
     if bool_decide (idx = (length (keys d) - 1)%nat) then inl AlreadyAtBoundary
     else inr (idx + 1)%nat
   else inl UnknownDirection) = inr new_index ->
  list_insert_at new_index key (delete idx (keys d)) = keys d' ->
  d' ⊆ d ->
  NoDup (keys d') ->
  fst (move_item direction st) = Done
  /\ descend pp (accordion_data (snd (move_item direction st))) = Some d'.
Proof.
  intros Hin Hidx Hdir Hkeys Hsub Hnd'. unfold move_item.
  pose proof get_siblings_selection as Hsib.
  apply existsb_str_eqb in Hin. subst key pp.
  destruct (current_selection st) as [|c sel] eqn:Esel; [done|].
  rewrite Hlock, Hsib, Hin. cbn [negb].
  rewrite Hidx, Hdir, Hkeys, (reordered_items_elems d d' Hnd Hsub).
  cbn [fst snd]. rewrite update_structure_display_data.
  cbn [accordion_data with_data]. split; [done|].
  rewrite (descend_modify_at _ _ _ _ Hdesc).
  by rewrite dict_rebuild_distinct.
Qed.

Lemma move_item_boundary direction (idx : nat) :
  key ∈ keys d ->
  index_of key (keys d) = idx ->
  (if str_eqb direction (text "up") then
     if bool_decide (idx = 0%nat) then inl AlreadyAtBoundary
     else inr (idx - 1)%nat
   else if str_eqb direction (text "down") then
     if bool_decide (idx = (length (keys d) - 1)%nat) then inl AlreadyAtBoundary
     else inr (idx + 1)%nat
   else inl UnknownDirection) = inl AlreadyAtBoundary ->
  move_item direction st = (AlreadyAtBoundary, st).
Proof.
  intros Hin Hidx Hdir. unfold move_item.
  pose proof get_siblings_selection as Hsib.
  apply existsb_str_eqb in Hin. subst key pp.
  destruct (current_selection st) as [|c sel] eqn:Esel; [done|].
  rewrite Hlock, Hsib, Hin. cbn [negb].
  by rewrite Hidx, Hdir.
Qed.
End MoveItem.

Lemma pop_insert_up {A} (l1 l2 : list A) a b :
  list_insert_at (length l1) b (delete (S (length l1)) (l1 ++ a :: b :: l2))
  = l1 ++ b :: a :: l2.
Proof.
  unfold list_insert_at. induction l1 as [|x l1 IH]; [done|].
  cbn [length app]. change (delete (S (S (length l1))) (x :: l1 ++ a :: b :: l2))
    with (x :: delete (S (length l1)) (l1 ++ a :: b :: l2)).
  cbn [take drop app]. by rewrite IH.
Qed.

Lemma pop_insert_down {A} (l1 l2 : list A) a b :
  list_insert_at (length l1 + 1) a (delete (length l1) (l1 ++ a :: b :: l2))
  = l1 ++ b :: a :: l2.
Proof.
  unfold list_insert_at. induction l1 as [|x l1 IH]; [done|].
  cbn [length app Nat.add]. change (delete (S (length l1)) (x :: l1 ++ a :: b :: l2))
    with (x :: delete (length l1) (l1 ++ a :: b :: l2)).
  cbn [take drop app]. by rewrite IH.
Qed.

Lemma swap_adjacent_middle {A} (l1 l2 : list A) a b :
  swap_adjacent (length l1) (l1 ++ a :: b :: l2) = l1 ++ b :: a :: l2.
Proof.
  unfold swap_adjacent. by rewrite drop_app_length, take_app_length.
Qed.

Lemma list_split_pair {A} (l : list A) (i : nat) a b :
  l !! i = Some a -> l !! S i = Some b ->
  l = take i l ++ a :: b :: drop (S (S i)) l /\ length (take i l) = i.
Proof.
  intros Ha Hb. split.
  - rewrite <- (take_drop_middle l i a Ha) at 1. f_equal. f_equal.
    by apply drop_S.
  - apply length_take_le, Nat.lt_le_incl. by eapply lookup_lt_Some.
Qed.

Lemma swapped_siblings (l1 l2 : dict) a b :
  NoDup (keys (l1 ++ a :: b :: l2)) ->
  l1 ++ b :: a :: l2 ⊆ l1 ++ a :: b :: l2
  /\ NoDup (keys (l1 ++ b :: a :: l2)).
Proof.
  assert (Hperm : l1 ++ b :: a :: l2 ≡ₚ l1 ++ a :: b :: l2)
    by apply Permutation_app_head, perm_swap.
  intros Hnd. split.
  - intros x. by rewrite Hperm.
  - unfold keys. by rewrite Hperm.
Qed.

Section MoveSwap.
Variable st : state.
Hypothesis Hsel : current_selection st <> [].
Hypothesis Hlock :
  truthy (any_ancestor_locked (locked_paths st) (current_selection st)) = false.

Let key := last_part (split SEP (current_selection st)).
Let pp := init_parts (split SEP (current_selection st)).

Lemma move_item_up_first v (l : dict) :
  descend pp (accordion_data st) = Some ((key, v) :: l) ->
  move_item_up st = (AlreadyAtBoundary, st).
Proof.
  intros Hdesc.
  apply (move_item_boundary st _ Hsel Hlock Hdesc _ 0).
  - by left.
  - simpl. by rewrite str_eqb_refl.
  - done.
Qed.

Lemma move_item_down_last v (l : dict) :
  NoDup (keys (l ++ [(key, v)])) ->
  descend pp (accordion_data st) = Some (l ++ [(key, v)]) ->
  move_item_down st = (AlreadyAtBoundary, st).
Proof.
  intros Hnd Hdesc.
  destruct (NoDup_keys_middle _ _ _ _ Hnd) as (Hk & _ & _).
  apply (move_item_boundary st _ Hsel Hlock Hdesc _ (length l)).
  - rewrite keys_middle. apply elem_of_app. right. by left.
  - rewrite keys_middle, index_of_split by done. unfold keys. by rewrite length_fmap.
  - change (str_eqb (text "down") (text "up")) with false.
    change (str_eqb (text "down") (text "down")) with true.
    cbn match. rewrite bool_decide_eq_true_2; [done|].
    unfold keys. rewrite length_fmap, length_app. simpl. lia.
Qed.

Lemma move_item_up_middle a v (l1 l2 : dict) :
  NoDup (keys (l1 ++ a :: (key, v) :: l2)) ->
  descend pp (accordion_data st) = Some (l1 ++ a :: (key, v) :: l2) ->
  fst (move_item_up st) = Done
  /\ descend pp (accordion_data (snd (move_item_up st)))
     = Some (l1 ++ (key, v) :: a :: l2).
Proof.
  intros Hnd Hdesc.
  destruct (swapped_siblings _ _ _ _ Hnd) as [Hsub Hnd'].
  assert (Hk : key ∉ keys (l1 ++ [a])).
  { change (l1 ++ a :: (key, v) :: l2) with (l1 ++ [a] ++ (key, v) :: l2) in Hnd.
    rewrite app_assoc in Hnd. by apply NoDup_keys_middle in Hnd as (? & _). }
  assert (Hkeys : keys (l1 ++ a :: (key, v) :: l2)
                  = keys l1 ++ fst a :: key :: keys l2).
  { unfold keys. by rewrite fmap_app. }
  apply (move_item_reorders st _ Hsel Hlock Hdesc Hnd _
           (S (length (keys l1))) (length (keys l1))).
  - rewrite Hkeys. apply elem_of_app. right. right. by left.
  - rewrite Hkeys.
    change (keys l1 ++ fst a :: key :: keys l2)
      with (keys l1 ++ [fst a] ++ key :: keys l2).
    rewrite app_assoc, index_of_split.
    + rewrite length_app. simpl. lia.
    + unfold keys in Hk. by rewrite fmap_app in Hk.
  - change (str_eqb (text "up") (text "up")) with true. cbn match.
    rewrite bool_decide_eq_false_2 by lia. f_equal. lia.
  - rewrite Hkeys, pop_insert_up. unfold keys. by rewrite fmap_app.
  - done.
  - done.
Qed.

Lemma move_item_down_middle b v (l1 l2 : dict) :
  NoDup (keys (l1 ++ (key, v) :: b :: l2)) ->
  descend pp (accordion_data st) = Some (l1 ++ (key, v) :: b :: l2) ->
  fst (move_item_down st) = Done
  /\ descend pp (accordion_data (snd (move_item_down st)))
     = Some (l1 ++ b :: (key, v) :: l2).
Proof.
  intros Hnd Hdesc.
  destruct (swapped_siblings _ _ _ _ Hnd) as [Hsub Hnd'].
  destruct (NoDup_keys_middle _ _ _ _ Hnd) as (Hk & _ & _).
  assert (Hkeys : keys (l1 ++ (key, v) :: b :: l2)
                  = keys l1 ++ key :: fst b :: keys l2).
  { unfold keys. by rewrite fmap_app. }
  apply (move_item_reorders st _ Hsel Hlock Hdesc Hnd _
           (length (keys l1)) (length (keys l1) + 1)).
  - rewrite Hkeys. apply elem_of_app. right. by left.
  - by rewrite Hkeys, index_of_split.
  - change (str_eqb (text "down") (text "up")) with false.
    change (str_eqb (text "down") (text "down")) with true. cbn match.
    rewrite bool_decide_eq_false_2; [done|].
    rewrite Hkeys, length_app. simpl. lia.
  - rewrite Hkeys, pop_insert_down. unfold keys. by rewrite fmap_app.
  - done.
  - done.
Qed.
End MoveSwap.

(** C7. For the selected node, the [k]-th child of its parent: moving up
    when it is first ([k = 0]) and moving down when it is last report the
    boundary and change nothing; otherwise the action succeeds and the
    parent's children are the old ones with the node and its neighbour in
    the requested direction exchanged, all others in place. *)
Theorem move_item_swaps_neighbours
    (st : state) (d : dict) (k : nat) (v : node) :
  current_selection st <> [] ->
  any_ancestor_locked (locked_paths st) (current_selection st) = None ->
  descend (init_parts (split SEP (current_selection st))) (accordion_data st)
  = Some d ->
  NoDup (keys d) ->
  d !! k = Some (last_part (split SEP (current_selection st)), v) ->
  let pp := init_parts (split SEP (current_selection st)) in
  (if bool_decide (k = 0%nat)
   then move_item_up st = (AlreadyAtBoundary, st)
   else fst (move_item_up st) = Done
        /\ descend pp (accordion_data (snd (move_item_up st)))
           = Some (swap_adjacent (k - 1) d))
  /\ (if bool_decide (k = (length d - 1)%nat)
      then move_item_down st = (AlreadyAtBoundary, st)
      else fst (move_item_down st) = Done
           /\ descend pp (accordion_data (snd (move_item_down st)))
              = Some (swap_adjacent k d)).
Proof.
  intros Hsel Hnone Hdesc Hnd Hk pp.
  assert (Hlock : truthy (any_ancestor_locked (locked_paths st)
                            (current_selection st)) = false)
    by (by rewrite Hnone).
  pose proof (lookup_lt_Some _ _ _ Hk) as Hlt.
  split.
  - case_bool_decide as Hk0.
    + subst k. destruct d as [|[k0 v0] l]; [done|]. injection Hk as -> ->.
      by eapply move_item_up_first.
    + destruct k as [|j]; [done|].
      destruct (lookup_lt_is_Some_2 d j ltac:(lia)) as [a Ha].
      destruct (list_split_pair d j a _ Ha Hk) as [Hd Hlen].
      replace (S j - 1)%nat with j by lia.
      remember (take j d) as l1 eqn:El1. remember (drop (S (S j)) d) as l2 eqn:El2.
      clear El1 El2. subst d. rewrite <- Hlen, swap_adjacent_middle.
      by apply move_item_up_middle.
  - case_bool_decide as Hkl.
    + pose proof (take_drop_middle d k _ Hk) as Hd.
      rewrite drop_ge in Hd by lia.
      remember (take k d) as l1 eqn:El1. clear El1. subst d.
      by eapply move_item_down_last.
    + destruct (lookup_lt_is_Some_2 d (S k) ltac:(lia)) as [b Hb].
      destruct (list_split_pair d k _ b Hk Hb) as [Hd Hlen].
      remember (take k d) as l1 eqn:El1. remember (drop (S (S k)) d) as l2 eqn:El2.
      clear El1 El2. subst d. rewrite <- Hlen, swap_adjacent_middle.
      by apply move_item_down_middle.
Qed.

(** In the sample tree [B] is the first and [D] the last child of [A]. *)
Lemma move_item_swaps_neighbours_witness :
  (move_item_up (sample_state (text "A > B"))
   = (AlreadyAtBoundary, sample_state (text "A > B")))
  /\ (fst (move_item_down (sample_state (text "A > B"))) = Done
      /\ descend [text "A"]
           (accordion_data (snd (move_item_down (sample_state (text "A > B")))))
         = Some [(text "C", leaf "c"); (text "B", leaf "b"); (text "D", leaf "d")]).
Proof.
  apply (move_item_swaps_neighbours (sample_state (text "A > B"))
           sample_children 0 (leaf "b")).
  - vm_compute. discriminate.
  - reflexivity.
  - reflexivity.
  - decide_by_compute.
  - reflexivity.
Defined.

(** ** Changing the path *)

(** What a refused relocation leaves behind: the node has been taken out of
    its parent and stored again under its key, which puts it after all its
    former siblings. *)
Lemma change_path_refused st new_path pp (l1 l2 : dict) key item :
  truthy (any_ancestor_locked (locked_paths st) (current_selection st)) = false ->
  get_parent_dict_and_key (accordion_data st) (current_selection st)
  = Some (pp, l1 ++ (key, item) :: l2, key) ->
  NoDup (keys (l1 ++ (key, item) :: l2)) ->
  new_path <> [] ->
  parse_new_path new_path <> [] ->
  let detached := modify_at pp (dict_del key) (accordion_data st) in
  let restored := with_data (modify_at pp (dict_set key item) detached) st in
  descend pp detached = Some (l1 ++ l2)
  /\ descend pp (accordion_data restored) = Some (l1 ++ l2 ++ [(key, item)])
  /\ (descend (init_parts (parse_new_path new_path)) detached = None ->
      change_path (Some new_path) st = (DestinationParentNotFound, restored))
  /\ (forall dest,
        descend (init_parts (parse_new_path new_path)) detached = Some dest ->
        last_part (parse_new_path new_path) ∈ keys dest ->
        change_path (Some new_path) st = (DestinationDuplicate, restored)).
Proof.
  intros Hlock Hget Hnd Hnp Hparts detached restored.
  pose proof (get_parent_dict_and_key_Some _ _ _ _ _ Hget)
    as (Hsel & Hpp & Hkey & Hdesc & Hin).
  pose proof (NoDup_keys_middle _ _ _ _ Hnd) as (Hk1 & Hk2 & Hnd').
  assert (Hdet : descend pp detached = Some (l1 ++ l2)).
  { unfold detached. rewrite (descend_modify_at _ _ _ _ Hdesc).
    by rewrite dict_del_split. }
  assert (Hfresh : key ∉ keys (l1 ++ l2)).
  { unfold keys. rewrite fmap_app, elem_of_app. by intros [?|?]. }
  split; [done|]. split.
  { unfold restored. cbn [accordion_data with_data].
    rewrite (descend_modify_at _ _ _ _ Hdet), dict_set_fresh by done.
    by rewrite <- app_assoc. }
  split.
  - intros Hnone. unfold change_path.
    destruct (current_selection st) as [|c sel] eqn:Esel; [done|].
    rewrite Hlock. destruct new_path as [|n0 np]; [done|].
    cbn [truthy negb default from_option id].
    destruct (parse_new_path (n0 :: np)) as [|p0 ps] eqn:Eparts; [done|].
    rewrite Hget, (dict_get_middle _ _ _ _ Hnd).
    cbn [accordion_data with_data]. fold detached.
    unfold ensure_parent_path. by rewrite Hnone.
  - intros dest Hdest Hdup. unfold change_path.
    destruct (current_selection st) as [|c sel] eqn:Esel; [done|].
    rewrite Hlock. destruct new_path as [|n0 np]; [done|].
    cbn [truthy negb default from_option id].
    destruct (parse_new_path (n0 :: np)) as [|p0 ps] eqn:Eparts; [done|].
    rewrite Hget, (dict_get_middle _ _ _ _ Hnd).
    cbn [accordion_data with_data]. fold detached.
    unfold ensure_parent_path. rewrite Hdest.
    apply dict_mem_keys in Hdup. by rewrite Hdup.
Qed.

(** C10. Relocating a node to a destination inside its own sub-tree fails
    with the destination-parent error: the node is detached first, so the
    destination parents are no longer reachable. The node, with its whole
    sub-tree, is stored again under its original parent and the selected
    path resolves to it as before. *)
Theorem change_path_into_own_subtree
    (st : state) (new_path : str) (extra pp : list str) (d : dict)
    (key : str) (item : node) :
  any_ancestor_locked (locked_paths st) (current_selection st) = None ->
  get_parent_dict_and_key (accordion_data st) (current_selection st)
  = Some (pp, d, key) ->
  dict_get key d = Some item ->
  NoDup (keys d) ->
  new_path <> [] ->
  parse_new_path new_path = split SEP (current_selection st) ++ extra ->
  extra <> [] ->
  let r := change_path (Some new_path) st in
  fst r = DestinationParentNotFound
  /\ descend pp (accordion_data (snd r)) = Some (dict_del key d ++ [(key, item)])
  /\ get_item_data (accordion_data (snd r)) (current_selection st) = Some item
  /\ current_selection (snd r) = current_selection st
  /\ locked_paths (snd r) = locked_paths st.
Proof.
  intros Hnone Hget Hitem Hnd Hnp Hparse Hextra r.
  pose proof (get_parent_dict_and_key_Some _ _ _ _ _ Hget)
    as (Hsel & Hpp & Hkey & Hdesc & Hin).
  destruct (dict_get_split _ _ _ Hitem) as (l1 & l2 & -> & Hk1).
  pose proof (NoDup_keys_middle _ _ _ _ Hnd) as (_ & Hk2 & Hnd').
  assert (Hfresh : key ∉ keys (l1 ++ l2)).
  { unfold keys. rewrite fmap_app, elem_of_app. by intros [?|?]. }
  assert (Hparts : parse_new_path new_path <> []).
  { rewrite Hparse. intros [_ ?]%app_eq_nil. done. }
  destruct (change_path_refused st new_path pp l1 l2 key item
              ltac:(by rewrite Hnone) Hget Hnd Hnp Hparts)
    as (Hdet & Hres & Hmissing & _).
  assert (Hsplit : split SEP (current_selection st) = pp ++ [key]).
  { rewrite Hpp, Hkey. symmetry. apply init_last_parts, split_from_nonempty. }
  subst r. rewrite Hmissing.
  - cbn [fst snd]. split; [done|]. rewrite dict_del_split by done.
    rewrite <- app_assoc. split; [exact Hres|]. split; [|done].
    unfold get_item_data.
    rewrite (get_parent_dict_and_key_intro _ _ (l1 ++ l2 ++ [(key, item)]));
      rewrite <- ?Hpp, <- ?Hkey; try done.
    + rewrite app_assoc, dict_get_app_r by done. simpl. by rewrite str_eqb_refl.
    + unfold keys. rewrite !fmap_app, !elem_of_app. right. right. by left.
  - rewrite Hparse, Hsplit. unfold init_parts.
    rewrite removelast_app by done.
    rewrite <- app_assoc, descend_app, Hdet. simpl.
    by rewrite (proj2 (dict_get_None key (l1 ++ l2)) Hfresh).
Qed.

(** Moving [A] to [A > B > X] in the sample tree: refused, and [A] is back
    among the top-level nodes with its three children. *)
Lemma change_path_into_own_subtree_witness :
  let r := change_path (Some (text "A > B > X")) (sample_state (text "A")) in
  fst r = DestinationParentNotFound
  /\ descend [] (accordion_data (snd r))
     = Some (dict_del (text "A") sample_tree ++ [(text "A", sample_node)])
  /\ get_item_data (accordion_data (snd r)) (text "A") = Some sample_node
  /\ current_selection (snd r) = text "A"
  /\ locked_paths (snd r) = ∅.
Proof.
  apply (change_path_into_own_subtree (sample_state (text "A")) (text "A > B > X")
           [text "B"; text "X"] [] sample_tree (text "A") sample_node).
  - reflexivity.
  - reflexivity.
  - reflexivity.
  - decide_by_compute.
  - vm_compute. discriminate.
  - reflexivity.
  - discriminate.
Defined.

(** C2 (the code at a failing request). Moving [A > B] to [Z > Q] (no
    parent [Z]) and to [A > D] (title taken) are both refused with the
    matching error, but the tree is not what it was: [B], the first child of
    [A] before the call, is its last child afterwards. *)
Theorem change_path_failure_moves_node_last :
  let st := sample_state (text "A > B") in
  keys sample_children = [text "B"; text "C"; text "D"]
  /\ (let r := change_path (Some (text "Z > Q")) st in
      fst r = DestinationParentNotFound
      /\ keys <$> descend [text "A"] (accordion_data (snd r))
         = Some [text "C"; text "D"; text "B"]
      /\ accordion_data (snd r) <> accordion_data st)
  /\ (let r := change_path (Some (text "A > D")) st in
      fst r = DestinationDuplicate
      /\ keys <$> descend [text "A"] (accordion_data (snd r))
         = Some [text "C"; text "D"; text "B"]
      /\ accordion_data (snd r) <> accordion_data st).
Proof.
  cbv zeta. split; [reflexivity|].
  split; (split; [by vm_compute|]; split; [by vm_compute|]);
    vm_compute; discriminate.
Qed.

(** ** Splitting a path and joining it again *)

Lemma prepend_prepend a b l : prepend a (prepend b l) = prepend (a ++ b) l.
Proof. destruct l; simpl; [done|]. by rewrite app_assoc. Qed.

Lemma starts_with_prefix p s : starts_with p s = true <-> p `prefix_of` s.
Proof.
  revert s. induction p as [|a p IH]; intros s; simpl.
  - split; [intros _; apply prefix_nil|done].
  - destruct s as [|b s].
    + split; [done|]. by intros ?%prefix_nil_inv.
    + rewrite andb_true_iff, N.eqb_eq, IH. split.
      * intros [-> Hp]. by apply prefix_cons.
      * intros Hp. split; [by apply prefix_cons_inv_1 in Hp|].
        by apply prefix_cons_inv_2 in Hp.
Qed.

Section SplitJoin.
(** a non-empty separator *)
Variables (a : N) (sep' : str).
Local Abbreviation sep := (a :: sep').

Lemma split_from_prepend skip cur s :
  split_from sep skip cur s = prepend cur (split_from sep skip [] s).
Proof.
  revert skip cur. induction s as [|c s IH]; intros skip cur.
  - simpl. by rewrite app_nil_r.
  - cbn [split_from]. destruct skip as [|n]; [|apply IH].
    destruct (starts_with sep (c :: s)).
    + simpl. by rewrite app_nil_r.
    + rewrite (IH 0%nat (cur ++ [c])), (IH 0%nat ([] ++ [c])).
      by rewrite prepend_prepend.
Qed.

Lemma split_from_skip t cur s :
  split_from sep (length t) cur (t ++ s) = split_from sep 0 cur s.
Proof. induction t as [|c t IH]; [done|]. exact IH. Qed.

Lemma split_sep s : split sep (sep ++ s) = [] :: split sep s.
Proof.
  unfold split. cbn [app split_from].
  assert (Hst : starts_with sep (a :: sep' ++ s) = true).
  { apply starts_with_prefix. by exists s. }
  rewrite Hst. f_equal. cbn [length pred]. apply split_from_skip.
Qed.

Lemma split_cons c s :
  starts_with sep (c :: s) = false ->
  split sep (c :: s) = prepend [c] (split sep s).
Proof.
  intros Hst. unfold split. cbn [split_from]. rewrite Hst.
  apply split_from_prepend.
Qed.

Lemma split_nonempty s : split sep s <> [].
Proof. apply split_from_nonempty. Qed.

Lemma join_prepend cur l :
  l <> [] -> join sep (prepend cur l) = cur ++ join sep l.
Proof.
  destruct l as [|x [|y r]]; [done|done|]. intros _.
  cbn [prepend join]. by rewrite <- app_assoc.
Qed.

Lemma join_cons x l : l <> [] -> join sep (x :: l) = x ++ sep ++ join sep l.
Proof. by destruct l. Qed.

(** Case analysis on how the scan starts. *)
Lemma split_cases s :
  s = []
  \/ (exists s', s = sep ++ s' /\ split sep s = [] :: split sep s')
  \/ (exists c s', s = c :: s' /\ starts_with sep s = false
                   /\ split sep s = prepend [c] (split sep s')).
Proof.
  destruct s as [|c s]; [by left|]. right.
  destruct (starts_with sep (c :: s)) eqn:Hst.
  - left. apply starts_with_prefix in Hst as [s' Hs'].
    exists s'. split; [done|]. rewrite Hs'. apply split_sep.
  - right. exists c, s. split; [done|]. split; [done|by apply split_cons].
Qed.

Lemma join_split s : join sep (split sep s) = s.
Proof.
  remember (length s) as n eqn:Hn. revert s Hn.
  induction n as [n IH] using lt_wf_ind. intros s Hn.
  destruct (split_cases s) as [->|[(s' & -> & Hsplit)|(c & s' & -> & Hst & Hsplit)]].
  - done.
  - rewrite Hsplit, join_cons by apply split_nonempty.
    rewrite (IH (length s')); [done| |done].
    rewrite Hn, length_app. simpl. lia.
  - rewrite Hsplit, join_prepend by apply split_nonempty.
    rewrite (IH (length s')); [done| |done]. rewrite Hn. simpl. lia.
Qed.


End SplitJoin.


Lemma join_split_path p : join SEP (split SEP p) = p.
Proof. exact (join_split 32 [62; 32] p). Qed.

(** ** Adding a child *)

Lemma get_item_data_eq data p :
  p <> [] ->
  get_item_data data p
  = descend (init_parts (split SEP p)) data ≫= dict_get (last_part (split SEP p)).
Proof.
  intros Hp. unfold get_item_data, get_parent_dict_and_key.
  destruct p as [|c p]; [done|].
  destruct (descend _ data) as [parent|]; [|done]. simpl.
  destruct (dict_mem _ parent) eqn:Hm; [done|].
  symmetry. by apply dict_get_None, dict_mem_false.
Qed.


(** Entries put after the existing ones do not change what an existing
    path resolves to. *)
Lemma resolve_app_frame (rest : list str) (T X : dict) m :
  rest <> [] ->
  descend (init_parts rest) T ≫= dict_get (last_part rest) = Some m ->
  descend (init_parts rest) (T ++ X) ≫= dict_get (last_part rest) = Some m.
Proof.
  destruct rest as [|k [|k' rest]]; [done| |]; intros _.
  - simpl. apply dict_get_app_l.
  - change (init_parts (k :: k' :: rest)) with (k :: init_parts (k' :: rest)).
    change (last_part (k :: k' :: rest)) with (last_part (k' :: rest)).
    cbn [descend]. destruct (dict_get k T) as [n|] eqn:Hk; [|done].
    by rewrite (dict_get_app_l _ _ _ _ Hk).
Qed.


Section AddSubtitle.
Variable st : state.
Variables (title_entry content_text : str) (n : node).
Hypothesis Htitle : strip title_entry <> [].
Hypothesis Hsel : current_selection st <> [].

Let p := current_selection st.
Let parent := default p (any_ancestor_locked (locked_paths st) p).
Let new_node :=
  Node (normalize_universal_bullets (strip content_text))
    (selected_image_path st) [].
Let r := add_subtitle title_entry content_text st.

Hypothesis Hparent : get_item_data (accordion_data st) parent = Some n.
Hypothesis Hfresh : strip title_entry ∉ keys (subtitles n).


End AddSubtitle.



(** * Further properties of the program *)

(** ** Induction on trees *)

Lemma node_induction (P : node -> Prop) :
  (forall c i subs, Forall (fun kv => P (snd kv)) subs -> P (Node c i subs)) ->
  forall n, P n.
Proof.
  intros H. fix IH 1. intros [c i subs]. apply H.
  induction subs as [|[k v] subs IHs]; constructor; [apply IH|apply IHs].
Qed.

(** ** Distinct sibling titles *)

Lemma titles_unique_unfold (d : dict) :
  titles_unique d = true
  <-> NoDup (keys d)
      /\ forall k v, (k, v) ∈ d -> titles_unique (subtitles v) = true.
Proof.
  unfold titles_unique. simpl.
  rewrite andb_true_iff, bool_decide_eq_true.
  apply and_iff_compat_l.
  induction d as [|[k0 v0] d IH].
  - split; [|done]. by intros _ k v ?%elem_of_nil.
  - rewrite andb_true_iff, IH. split.
    + intros [Hv Hd] k v [[= -> ->]|Hin]%elem_of_cons.
      * by destruct v0.
      * by eapply Hd.
    + intros Hall. split.
      * specialize (Hall k0 v0 ltac:(by left)). by destruct v0.
      * intros k v Hin. apply (Hall k v). by right.
Qed.






















(** ** Refused calls *)

Lemma renamed_items_is_Some new_title item (d : dict) (idx : nat) :
  is_Some (renamed_items new_title item d (<[idx := new_title]> (keys d))).
Proof.
  unfold renamed_items.
  destruct (mapM _ _) as [items|] eqn:Hm; [by eexists|].
  apply mapM_None_1, Exists_exists in Hm as (k & Hin & Hk).
  apply list_elem_of_lookup in Hin as [j Hj].
  apply list_lookup_insert_Some in Hj as [(_ & <- & _)|[_ Hj]].
  - by rewrite str_eqb_refl in Hk.
  - destruct (str_eqb k new_title); [done|].
    destruct (dict_get k d) as [v|] eqn:Hget; [done|].
    apply dict_get_None in Hget. destruct Hget.
    by eapply list_elem_of_lookup_2.
Qed.

Lemma save_changes_atomic title_entry content_text st :
  fst (save_changes title_entry content_text st) = Done
  \/ snd (save_changes title_entry content_text st) = st.
Proof.
  unfold save_changes.
  destruct (current_selection st) as [|c sel] eqn:Esel; [by right|].
  destruct (truthy _); [by right|].
  destruct (get_parent_dict_and_key _ _) as [[[pp d] key]|] eqn:Hget; [|by right].
  destruct (dict_get key d) as [item|] eqn:Hitem; [|by right].
  destruct (strip title_entry) as [|t0 t]; [by right|].
  destruct (_ && _); [by right|].
  apply get_parent_dict_and_key_Some in Hget as (_ & _ & _ & _ & Hin).
  destruct (negb _); [|by left].
  rewrite keys_dict_alter.
  apply existsb_str_eqb in Hin. rewrite Hin.
  match goal with |- context [renamed_items ?a ?b ?c (<[?i := _]> _)] =>
    destruct (renamed_items_is_Some a b c i) as [items Hitems] end.
  rewrite keys_dict_alter in Hitems. rewrite Hitems. by left.
Qed.

(** X2. A refused call changes nothing: whenever adding a title or a
    sub-title, saving, deleting, moving or toggling the lock ends otherwise
    than by [Done], the whole state (tree, selection, pending image and lock
    set) is the one the call started from. *)
Theorem refused_actions_leave_state
    (st : state) (title_entry content_text direction : str) (confirm : bool) :
  (fst (add_title title_entry content_text st) = Done
   \/ snd (add_title title_entry content_text st) = st)
  /\ (fst (add_subtitle title_entry content_text st) = Done
      \/ snd (add_subtitle title_entry content_text st) = st)
  /\ (fst (save_changes title_entry content_text st) = Done
      \/ snd (save_changes title_entry content_text st) = st)
  /\ (fst (delete_item confirm st) = Done \/ snd (delete_item confirm st) = st)
  /\ (fst (move_item direction st) = Done \/ snd (move_item direction st) = st)
  /\ (fst (toggle_lock_selected st) = Done \/ snd (toggle_lock_selected st) = st).
Proof.
  split; [|split; [|split; [apply save_changes_atomic|split; [|split]]]].
  - unfold add_title. repeat case_match; (by left) || by right.
  - unfold add_subtitle. repeat case_match; (by left) || by right.
  - unfold delete_item. repeat case_match; (by left) || by right.
  - unfold move_item. repeat case_match; (by left) || by right.
  - unfold toggle_lock_selected. repeat case_match; (by left) || by right.
Qed.

(** ** Which paths a lock governs *)

Lemma join_app (sep : str) (l1 l2 : list str) :
  l1 <> [] -> l2 <> [] ->
  join sep (l1 ++ l2) = join sep l1 ++ sep ++ join sep l2.
Proof.
  intros H1 H2. induction l1 as [|x l1 IH]; [done|].
  destruct l1 as [|y l1].
  - destruct l2; [done|]. done.
  - change ((x :: y :: l1) ++ l2) with (x :: (y :: l1) ++ l2).
    change (join sep (x :: (y :: l1) ++ l2))
      with (x ++ sep ++ join sep ((y :: l1) ++ l2)).
    rewrite IH by done.
    change (join sep (x :: y :: l1)) with (x ++ sep ++ join sep (y :: l1)).
    by rewrite <- !app_assoc.
Qed.

Lemma candidate_is_path_prefix p g :
  g ∈ ancestor_candidates p -> g = p \/ exists rest, p = g ++ SEP ++ rest.
Proof.
  intros [i Hi]%list_elem_of_lookup.
  assert (Hlt : (i < length (split SEP p))%nat).
  { rewrite <- ancestor_candidates_length. by eapply lookup_lt_Some. }
  rewrite ancestor_candidates_lookup in Hi by done. injection Hi as <-.
  pose proof (take_drop (S i) (split SEP p)) as Htd.
  destruct (drop (S i) (split SEP p)) as [|x rest] eqn:Hdrop.
  - left. rewrite app_nil_r in Htd. rewrite Htd. apply join_split_path.
  - right. exists (join SEP (x :: rest)).
    transitivity (join SEP (take (S i) (split SEP p) ++ x :: rest)).
    + by rewrite Htd, join_split_path.
    + apply join_app; [|done].
      destruct (split SEP p); [simpl in Hlt; lia|done].
Qed.

(** X3. A lock reaches downwards only: the path reported by
    [any_ancestor_locked] is a member of the lock set and is either the
    given path itself or a prefix of it that ends right before a separator.
    A locked sibling, descendant or look-alike (["A"] for ["AB"]) never
    governs. *)
Theorem governing_path_is_prefix (locked : gset str) (p g : str) :
  any_ancestor_locked locked p = Some g ->
  g ∈ locked /\ (g = p \/ exists rest, p = g ++ SEP ++ rest).
Proof.
  intros (i & Hi & Hin & _)%any_ancestor_locked_governing.
  split; [done|]. apply candidate_is_path_prefix.
  by eapply list_elem_of_lookup_2.
Qed.

Lemma governing_path_is_prefix_witness :
  text "A" ∈ ({[ text "A" ]} : gset str)
  /\ (text "A" = text "A > B > C"
      \/ exists rest, text "A > B > C" = text "A" ++ SEP ++ rest).
Proof.
  apply (governing_path_is_prefix {[ text "A" ]} (text "A > B > C") (text "A")).
  by vm_compute.
Defined.

(** ** Locking and unlocking *)

Lemma update_structure_display_listed p st :
  p <> [] -> p ∈ all_paths (accordion_data st) ->
  update_structure_display (Some p) st = with_selection p st.
Proof.
  intros Hp Hin. unfold update_structure_display.
  destruct p as [|c p]; [done|]. by rewrite bool_decide_eq_true_2.
Qed.

(** X4. [toggle_lock_selected] flips the membership of the selected path and
    of no other path, and leaves the tree alone; toggling twice on a listed
    selection gives the lock set back. *)
Theorem toggle_lock_selected_flips (st : state) :
  current_selection st <> [] ->
  current_selection st ∈ all_paths (accordion_data st) ->
  let p := current_selection st in
  let r := toggle_lock_selected st in
  fst r = Done
  /\ accordion_data (snd r) = accordion_data st
  /\ current_selection (snd r) = p
  /\ (p ∈ locked_paths (snd r) <-> p ∉ locked_paths st)
  /\ (forall q, q <> p -> q ∈ locked_paths (snd r) <-> q ∈ locked_paths st)
  /\ locked_paths (snd (toggle_lock_selected (snd r))) = locked_paths st.
Proof.
  intros Hp Hin p r.
  assert (Hr : r = (Done,
                    with_selection p
                      (if bool_decide (p ∈ locked_paths st)
                       then with_locks (locked_paths st ∖ {[p]}) st
                       else with_locks (locked_paths st ∪ {[p]}) st))).
  { subst r p. unfold toggle_lock_selected.
    destruct (current_selection st) as [|c sel] eqn:Esel; [done|].
    f_equal.
    case_bool_decide; cbn [current_selection with_locks]; rewrite Esel;
      (rewrite update_structure_display_listed; [done|done|exact Hin]). }
  rewrite Hr. cbn [fst snd].
  split; [done|]. split; [by case_bool_decide|]. split; [by case_bool_decide|].
  split; [|split].
  - case_bool_decide as Hl; cbn [locked_paths with_selection with_locks].
    + rewrite elem_of_difference, elem_of_singleton. split; [by intros [_ ?]|done].
    + rewrite elem_of_union, elem_of_singleton. split; [done|by right].
  - intros q Hq.
    case_bool_decide as Hl; cbn [locked_paths with_selection with_locks].
    + rewrite elem_of_difference, elem_of_singleton. split; [by intros [? _]|done].
    + rewrite elem_of_union, elem_of_singleton. split; [by intros [?|?]|by left].
  - unfold toggle_lock_selected.
    case_bool_decide as Hl;
      cbn [current_selection locked_paths accordion_data with_selection with_locks].
    + fold p. destruct p as [|c sel] eqn:Ep; [done|].
      rewrite bool_decide_eq_false_2
        by (rewrite elem_of_difference, elem_of_singleton; by intros [_ ?]).
      cbn [snd]. rewrite update_structure_display_locks.
      cbn [locked_paths with_selection with_locks].
      apply set_eq. intros q.
      rewrite elem_of_union, elem_of_difference, elem_of_singleton.
      destruct (decide (q = c :: sel)) as [->|Hq].
      * split; [done|by right].
      * split; [by intros [[? _]|?]|by left].
    + fold p. destruct p as [|c sel] eqn:Ep; [done|].
      rewrite bool_decide_eq_true_2
        by (rewrite elem_of_union, elem_of_singleton; by right).
      cbn [snd]. rewrite update_structure_display_locks.
      cbn [locked_paths with_selection with_locks].
      apply set_eq. intros q.
      rewrite elem_of_difference, elem_of_union, elem_of_singleton.
      split; [by intros [[?|?] ?]|].
      intros Hq. split; [by left|]. by intros ->.
Qed.

Lemma toggle_lock_selected_flips_witness :
  let st := sample_state (text "A > B") in
  let r := toggle_lock_selected st in
  fst r = Done
  /\ accordion_data (snd r) = sample_tree
  /\ current_selection (snd r) = text "A > B"
  /\ (text "A > B" ∈ locked_paths (snd r) <-> text "A > B" ∉ locked_paths st)
  /\ (forall q, q <> text "A > B" ->
        q ∈ locked_paths (snd r) <-> q ∈ locked_paths st)
  /\ locked_paths (snd (toggle_lock_selected (snd r))) = locked_paths st.
Proof.
  apply (toggle_lock_selected_flips (sample_state (text "A > B"))).
  - vm_compute. discriminate.
  - apply list_elem_of_In. vm_compute. auto.
Defined.

Lemma selection_is_own_candidate p : p ∈ ancestor_candidates p.
Proof.
  pose proof (split_from_nonempty SEP 0 [] p) as Hne. fold (split SEP p) in Hne.
  apply list_elem_of_lookup. exists (pred (length (split SEP p))).
  rewrite ancestor_candidates_lookup.
  - f_equal. rewrite take_ge; [apply join_split_path|].
    destruct (split SEP p); [done|simpl; lia].
  - destruct (split SEP p); [done|simpl; lia].
Qed.

(** X5. Locking protects at once: after [toggle_lock_selected] has locked a
    listed, so far unlocked selection, saving, deleting, moving and
    relocating that selection are all refused with a [Locked] message and
    leave the state alone. *)
Theorem lock_then_mutation_refused
    (st : state) (title_entry content_text direction : str)
    (confirm : bool) (new_path : option str) :
  locks_wf st ->
  current_selection st <> [] ->
  current_selection st ∈ all_paths (accordion_data st) ->
  current_selection st ∉ locked_paths st ->
  let st' := snd (toggle_lock_selected st) in
  exists g,
    governing (locked_paths st') (current_selection st) g
    /\ save_changes title_entry content_text st' = (Locked g, st')
    /\ delete_item confirm st' = (Locked g, st')
    /\ move_item direction st' = (Locked g, st')
    /\ change_path new_path st' = (Locked g, st').
Proof.
  intros Hwf Hp Hin Hnl st'.
  assert (Hst' : st' = with_selection (current_selection st)
                         (with_locks (locked_paths st ∪ {[current_selection st]}) st)).
  { subst st'. unfold toggle_lock_selected.
    destruct (current_selection st) as [|c sel] eqn:Esel; [done|].
    rewrite bool_decide_eq_false_2 by done. cbn [snd current_selection with_locks].
    rewrite Esel. by rewrite update_structure_display_listed. }
  assert (Hsel' : current_selection st' = current_selection st) by (by rewrite Hst').
  destruct (guard_fires st' (current_selection st)) as (g & Hg & Hne & _).
  - by apply toggle_lock_selected_wf.
  - rewrite Hsel'. apply selection_is_own_candidate.
  - rewrite Hst'. cbn [locked_paths with_selection with_locks].
    apply elem_of_union. right. by apply elem_of_singleton.
  - exists g. rewrite Hsel' in Hg.
    split; [by apply any_ancestor_locked_governing|].
    unfold save_changes, delete_item, move_item, change_path.
    rewrite Hsel', Hg. destruct (current_selection st) as [|c sel]; [done|].
    by destruct g.
Qed.

Lemma lock_then_mutation_refused_witness :
  let st' := snd (toggle_lock_selected (sample_state (text "A > B"))) in
  exists g,
    governing (locked_paths st') (text "A > B") g
    /\ save_changes (text "B") (text "b") st' = (Locked g, st')
    /\ delete_item true st' = (Locked g, st')
    /\ move_item (text "down") st' = (Locked g, st')
    /\ change_path (Some (text "E > B")) st' = (Locked g, st').
Proof.
  apply (lock_then_mutation_refused (sample_state (text "A > B"))).
  - apply not_elem_of_empty.
  - vm_compute. discriminate.
  - apply list_elem_of_In. vm_compute. auto.
  - apply not_elem_of_empty.
Defined.

(** ** Deleting *)

(** X6. A confirmed delete of an unlocked node removes its entry, and with
    it the whole sub-tree, from the parent; the other children keep their
    order, the deleted path no longer resolves, and the selection and the
    pending image are cleared. *)
Theorem delete_item_removes_node
    (st : state) (pp : list str) (l1 l2 : dict) (key : str) (item : node) :
  any_ancestor_locked (locked_paths st) (current_selection st) = None ->
  get_parent_dict_and_key (accordion_data st) (current_selection st)
  = Some (pp, l1 ++ (key, item) :: l2, key) ->
  NoDup (keys (l1 ++ (key, item) :: l2)) ->
  let r := delete_item true st in
  fst r = Done
  /\ descend pp (accordion_data (snd r)) = Some (l1 ++ l2)
  /\ get_item_data (accordion_data (snd r)) (current_selection st) = None
  /\ current_selection (snd r) = []
  /\ selected_image_path (snd r) = [].
Proof.
  intros Hnone Hget Hnd r.
  pose proof (get_parent_dict_and_key_Some _ _ _ _ _ Hget)
    as (Hsel & Hpp & Hkey & Hdesc & Hin).
  pose proof (NoDup_keys_middle _ _ _ _ Hnd) as (Hk1 & Hk2 & _).
  assert (Hr : r = (Done,
                    update_structure_display None
                      (with_selection []
                         (clear_inputs
                            (with_data (modify_at pp (dict_del key) (accordion_data st))
                               st))))).
  { subst r. unfold delete_item.
    destruct (current_selection st) as [|c sel]; [done|].
    by rewrite Hnone, Hget. }
  rewrite Hr. cbn [fst snd]. split; [done|].
  rewrite update_structure_display_data.
  cbn [accordion_data with_data with_selection clear_inputs with_image].
  assert (Hdesc' : descend pp (modify_at pp (dict_del key) (accordion_data st))
                   = Some (l1 ++ l2)).
  { rewrite (descend_modify_at _ _ _ _ Hdesc). by rewrite dict_del_split. }
  split; [done|]. split; [|done].
  rewrite get_item_data_eq, <- Hpp, <- Hkey, Hdesc' by done. simpl.
  apply dict_get_None. unfold keys. rewrite fmap_app, elem_of_app. by intros [?|?].
Qed.

Lemma delete_item_removes_node_witness :
  let r := delete_item true (sample_state (text "A > C")) in
  fst r = Done
  /\ descend [text "A"] (accordion_data (snd r))
     = Some ([(text "B", leaf "b")] ++ [(text "D", leaf "d")])
  /\ get_item_data (accordion_data (snd r)) (text "A > C") = None
  /\ current_selection (snd r) = []
  /\ selected_image_path (snd r) = [].
Proof.
  apply (delete_item_removes_node (sample_state (text "A > C")) [text "A"]
           [(text "B", leaf "b")] [(text "D", leaf "d")] (text "C") (leaf "c")).
  - reflexivity.
  - reflexivity.
  - decide_by_compute.
Defined.

(** ** Adding a top-level title *)

(** X7. A new top-level title goes last and disturbs nothing: every path
    that resolved before resolves to the same node afterwards, the new node
    holds the normalized content and the pending image, and the pending
    image is reset. *)
Theorem add_title_appends (st : state) (title_entry content_text : str) :
  strip title_entry <> [] ->
  strip title_entry ∉ keys (accordion_data st) ->
  let r := add_title title_entry content_text st in
  let new_node :=
    Node (normalize_universal_bullets (strip content_text))
      (selected_image_path st) [] in
  fst r = Done
  /\ accordion_data (snd r) = accordion_data st ++ [(strip title_entry, new_node)]
  /\ selected_image_path (snd r) = []
  /\ locked_paths (snd r) = locked_paths st
  /\ forall q m, get_item_data (accordion_data st) q = Some m ->
                 get_item_data (accordion_data (snd r)) q = Some m.
Proof.
  intros Hne Hfresh r new_node.
  assert (Hdata : fst r = Done
                  /\ accordion_data (snd r)
                     = accordion_data st ++ [(strip title_entry, new_node)]
                  /\ selected_image_path (snd r) = []).
  { subst r. unfold add_title.
    destruct (strip title_entry) as [|t0 t] eqn:Et; [done|].
    apply dict_mem_false in Hfresh as Hm. rewrite Hm.
    cbn [fst snd accordion_data selected_image_path with_image].
    rewrite update_structure_display_data.
    cbn [accordion_data with_data clear_inputs with_image].
    by rewrite dict_set_fresh. }
  destruct Hdata as (Hdone & Hdata & Himg).
  split; [done|]. split; [done|]. split; [done|].
  split; [apply add_title_locks|].
  intros q m Hq. rewrite Hdata.
  assert (Hqne : q <> []) by (by intros ->).
  rewrite get_item_data_eq in Hq |- * by done.
  apply resolve_app_frame; [apply split_from_nonempty|done].
Qed.

Lemma add_title_appends_witness :
  let st := sample_state (text "A > B") in
  let r := add_title (text " F ") (text "- f") st in
  let new_node := Node (normalize_universal_bullets (strip (text "- f"))) [] [] in
  fst r = Done
  /\ accordion_data (snd r) = sample_tree ++ [(strip (text " F "), new_node)]
  /\ selected_image_path (snd r) = []
  /\ locked_paths (snd r) = ∅
  /\ forall q m, get_item_data sample_tree q = Some m ->
                 get_item_data (accordion_data (snd r)) q = Some m.
Proof.
  apply (add_title_appends (sample_state (text "A > B")) (text " F ") (text "- f")).
  - vm_compute. discriminate.
  - decide_by_compute.
Defined.

(** ** The list of paths *)

Lemma recurse_node_cons cp c i k v (rest : dict) :
  recurse_node cp (Node c i ((k, v) :: rest))
  = child_path cp k :: recurse_node (child_path cp k) v
      ++ recurse_node cp (Node c i rest).
Proof. done. Qed.

Lemma recurse_node_subtitles cp (n : node) :
  recurse_node cp n = recurse_node cp (Node [] [] (subtitles n)).
Proof. by destruct n. Qed.

Lemma listed_child cp k v (d : dict) :
  dict_get k d = Some v ->
  child_path cp k ∈ recurse_node cp (Node [] [] d)
  /\ forall q, q ∈ recurse_node (child_path cp k) v ->
               q ∈ recurse_node cp (Node [] [] d).
Proof.
  induction d as [|[k0 v0] d IH]; [done|].
  rewrite recurse_node_cons. simpl dict_get. case_key k k0.
  - intros [= ->]. split; [by left|].
    intros q Hq. right. apply elem_of_app. by left.
  - intros [H1 H2]%IH. split.
    + right. apply elem_of_app. by right.
    + intros q Hq. right. apply elem_of_app. right. by apply H2.
Qed.

Lemma walk_listed (parts : list str) (d : dict) cp m :
  parts <> [] ->
  descend (init_parts parts) d ≫= dict_get (last_part parts) = Some m ->
  foldl child_path cp parts ∈ recurse_node cp (Node [] [] d).
Proof.
  revert d cp. induction parts as [|k parts IH]; intros d cp Hne; [done|].
  destruct parts as [|k' parts].
  - simpl. by intros [H _]%(listed_child cp).
  - change (init_parts (k :: k' :: parts)) with (k :: init_parts (k' :: parts)).
    change (last_part (k :: k' :: parts)) with (last_part (k' :: parts)).
    cbn [descend]. destruct (dict_get k d) as [n|] eqn:Hk; [|done].
    intros Hwalk. apply (listed_child cp) in Hk as [_ Hsub].
    apply Hsub. rewrite recurse_node_subtitles.
    change (foldl child_path cp (k :: k' :: parts))
      with (foldl child_path (child_path cp k) (k' :: parts)).
    by apply IH.
Qed.

Lemma foldl_child_path cp (parts : list str) :
  cp <> [] ->
  foldl child_path cp parts
  = match parts with
    | [] => cp
    | _ => cp ++ SEP ++ join SEP parts
    end.
Proof.
  revert cp. induction parts as [|k parts IH]; intros cp Hcp; [done|].
  cbn [foldl]. rewrite IH.
  - unfold child_path. destruct cp as [|c0 cp]; [done|].
    destruct parts as [|k' parts]; [done|].
    change (join SEP (k :: k' :: parts)) with (k ++ SEP ++ join SEP (k' :: parts)).
    by rewrite <- !app_assoc.
  - unfold child_path. by destruct cp.
Qed.

Lemma foldl_child_path_join k (parts : list str) :
  k <> [] -> foldl child_path [] (k :: parts) = join SEP (k :: parts).
Proof.
  intros Hk. cbn [foldl]. change (child_path [] k) with k.
  rewrite foldl_child_path by done. by destruct parts.
Qed.

Lemma split_first_part p :
  p <> [] -> starts_with SEP p = false ->
  exists k parts, split SEP p = k :: parts /\ k <> [].
Proof.
  intros Hp Hst.
  destruct (split_cases 32 [62; 32] p)
    as [->|[(s' & -> & _)|(c & s' & -> & _ & Hsplit)]]; [done| |].
  - assert (starts_with SEP ((32 :: [62; 32]) ++ s') = true)
      by (apply starts_with_prefix; by exists s').
    congruence.
  - pose proof (split_nonempty 32 [62; 32] s') as Hne.
    change (split (32 :: [62; 32])) with (split SEP) in *.
    rewrite Hsplit. destruct (split SEP s') as [|x r]; [done|].
    by exists ([c] ++ x), r.
Qed.

(** X8. Every path that resolves to a node and does not begin with the
    separator is shown in the structure list, so a refresh of the display
    asked to keep that selection keeps it. *)
Theorem resolved_selection_is_kept (st : state) (p : str) (m : node) :
  get_item_data (accordion_data st) p = Some m ->
  starts_with SEP p = false ->
  p ∈ all_paths (accordion_data st)
  /\ update_structure_display (Some p) st = with_selection p st.
Proof.
  intros Hm Hst.
  assert (Hp : p <> []) by (by intros ->).
  assert (Hin : p ∈ all_paths (accordion_data st)).
  { destruct (split_first_part p Hp Hst) as (k & parts & Hsplit & Hk).
    rewrite get_item_data_eq in Hm by done.
    apply (walk_listed _ _ [] m) in Hm; [|apply split_from_nonempty].
    rewrite Hsplit, foldl_child_path_join in Hm by done.
    by rewrite <- Hsplit, join_split_path in Hm. }
  split; [done|]. by apply update_structure_display_listed.
Qed.

Lemma resolved_selection_is_kept_witness :
  text "A > C" ∈ all_paths (accordion_data (sample_state []))
  /\ update_structure_display (Some (text "A > C")) (sample_state [])
     = with_selection (text "A > C") (sample_state []).
Proof.
  apply (resolved_selection_is_kept (sample_state []) (text "A > C") (leaf "c")).
  - reflexivity.
  - reflexivity.
Defined.

Lemma titles_plain_unfold (d : dict) :
  titles_plain d = true
  <-> forall k v, (k, v) ∈ d ->
        plain_title k = true /\ titles_plain (subtitles v) = true.
Proof.
  unfold titles_plain. simpl.
  induction d as [|[k0 v0] d IH].
  - split; [|done]. by intros _ k v ?%elem_of_nil.
  - rewrite !andb_true_iff, IH. split.
    + intros [[Hk Hv] Hd] k v [[= -> ->]|Hin]%elem_of_cons.
      * split; [done|]. by destruct v0.
      * by apply Hd.
    + intros Hall. split; [split|].
      * by apply (Hall k0 v0); left.
      * destruct (Hall k0 v0 ltac:(by left)) as [_ ?]. by destruct v0.
      * intros k v Hin. apply (Hall k v). by right.
Qed.

Lemma plain_title_spec k : plain_title k = true <-> k <> [] /\ 62 ∉ k.
Proof.
  unfold plain_title.
  rewrite andb_true_iff, !negb_true_iff, !bool_decide_eq_false. done.
Qed.

(** *** Splitting a path made of plain titles *)

Lemma starts_with_sep_second c y s :
  y <> 62 -> starts_with SEP (c :: y :: s) = false.
Proof.
  intros Hy. change (starts_with SEP (c :: y :: s))
    with ((32 =? c) && ((62 =? y) && starts_with [32] s)).
  destruct (N.eqb_spec 62 y) as [E|_]; [by destruct Hy|].
  by rewrite andb_false_r.
Qed.

Lemma split_from_plain cur x t :
  62 ∉ x ->
  split_from SEP 0 cur (x ++ SEP ++ t) = (cur ++ x) :: split_from SEP 0 [] t.
Proof.
  revert cur. induction x as [|c x IH]; intros cur Hx.
  - rewrite app_nil_r. done.
  - apply not_elem_of_cons in Hx as [Hc Hx].
    assert (Hst : starts_with SEP ((c :: x) ++ SEP ++ t) = false).
    { destruct x as [|y x]; [by apply (starts_with_sep_second c 32 ([62; 32] ++ t))|].
      apply starts_with_sep_second.
      apply not_elem_of_cons in Hx as [Hy _]. by intros ->. }
    cbn [app split_from] in *. rewrite Hst, IH by done. by rewrite <- app_assoc.
Qed.

Lemma split_from_plain_last cur x :
  62 ∉ x -> split_from SEP 0 cur x = [cur ++ x].
Proof.
  revert cur. induction x as [|c x IH]; intros cur Hx.
  - simpl. by rewrite app_nil_r.
  - apply not_elem_of_cons in Hx as [Hc Hx].
    assert (Hst : starts_with SEP (c :: x) = false).
    { destruct x as [|y x].
      { change (starts_with SEP [c]) with ((32 =? c) && false).
        by rewrite andb_false_r. }
      apply starts_with_sep_second.
      apply not_elem_of_cons in Hx as [Hy _]. by intros ->. }
    cbn [split_from]. rewrite Hst, IH by done. by rewrite <- app_assoc.
Qed.

Lemma split_join_plain (ks : list str) :
  ks <> [] -> Forall (fun k => 62 ∉ k) ks -> split SEP (join SEP ks) = ks.
Proof.
  intros Hne Hks. induction Hks as [|x ks Hx Hks IH]; [done|].
  destruct ks as [|y ks].
  - simpl. by apply split_from_plain_last.
  - change (join SEP (x :: y :: ks)) with (x ++ SEP ++ join SEP (y :: ks)).
    unfold split. rewrite split_from_plain by done. f_equal. by apply IH.
Qed.

Lemma walk_cons_other (ks : list str) k v (rest : dict) m :
  k ∉ keys rest ->
  descend (init_parts ks) rest ≫= dict_get (last_part ks) = Some m ->
  descend (init_parts ks) ((k, v) :: rest) ≫= dict_get (last_part ks) = Some m.
Proof.
  intros Hk.
  assert (Hone : forall k0, dict_get k0 rest = Some m ->
                            dict_get k0 ((k, v) :: rest) = Some m).
  { intros k0 Hget. simpl. case_key k0 k; [|done].
    apply dict_get_None in Hk. congruence. }
  destruct ks as [|k0 [|k1 ks]]; [apply Hone|apply Hone|].
  - change (init_parts (k0 :: k1 :: ks)) with (k0 :: init_parts (k1 :: ks)).
    change (last_part (k0 :: k1 :: ks)) with (last_part (k1 :: ks)).
    cbn [descend dict_get]. case_key k0 k; [|done].
    apply dict_get_None in Hk. by rewrite Hk.
Qed.

Lemma titles_unique_cons k v (rest : dict) :
  titles_unique ((k, v) :: rest) = true ->
  (k ∉ keys rest)
  /\ titles_unique (subtitles v) = true
  /\ titles_unique rest = true.
Proof.
  intros [Hnd Hall]%titles_unique_unfold. apply NoDup_cons in Hnd as [Hk Hnd].
  split; [done|]. split; [apply (Hall k v); by left|].
  apply titles_unique_unfold. split; [done|].
  intros k' v' Hin. apply (Hall k' v'). by right.
Qed.

Lemma titles_plain_cons k v (rest : dict) :
  titles_plain ((k, v) :: rest) = true ->
  plain_title k = true
  /\ titles_plain (subtitles v) = true
  /\ titles_plain rest = true.
Proof.
  intros Hall. pose proof (proj1 (titles_plain_unfold _) Hall) as Hall'.
  clear Hall. rename Hall' into Hall.
  destruct (Hall k v ltac:(by left)) as [Hk Hv].
  split; [done|]. split; [done|].
  apply titles_plain_unfold. intros k' v' Hin. apply (Hall k' v'). by right.
Qed.

(** A listed path is obtained by walking down the tree along titles. *)
Lemma listed_walk (n : node) :
  forall cp q,
    titles_unique (subtitles n) = true ->
    titles_plain (subtitles n) = true ->
    q ∈ recurse_node cp n ->
    exists ks m,
      ks <> []
      /\ q = foldl child_path cp ks
      /\ descend (init_parts ks) (subtitles n) ≫= dict_get (last_part ks) = Some m
      /\ Forall (fun k => plain_title k = true) ks.
Proof.
  induction n as [c i subs IHsubs] using node_induction.
  cbn [subtitles].
  induction subs as [|[k v] rest IHrest]; intros cp q Hu Hp Hq.
  - by apply elem_of_nil in Hq.
  - apply Forall_cons in IHsubs as [Pv Prest]. cbn [snd] in Pv.
    apply titles_unique_cons in Hu as (Hk & Huv & Hur).
    apply titles_plain_cons in Hp as (Hpk & Hpv & Hpr).
    rewrite recurse_node_cons in Hq.
    apply elem_of_cons in Hq as [->|[Hq|Hq]%elem_of_app].
    + exists [k], v. split; [done|]. split; [done|]. split.
      * simpl. by rewrite str_eqb_refl.
      * by constructor.
    + destruct (Pv _ _ Huv Hpv Hq) as (ks & m & Hne & -> & Hwalk & Hplain).
      exists (k :: ks), m. split; [done|]. split; [done|]. split.
      * destruct ks as [|k1 ks]; [done|].
        change (init_parts (k :: k1 :: ks)) with (k :: init_parts (k1 :: ks)).
        change (last_part (k :: k1 :: ks)) with (last_part (k1 :: ks)).
        cbn [descend dict_get]. by rewrite str_eqb_refl.
      * by constructor.
    + destruct (IHrest Prest cp q Hur Hpr Hq) as (ks & m & Hne & -> & Hwalk & Hplain).
      exists ks, m. split; [done|]. split; [done|]. split; [|done].
      by apply walk_cons_other.
Qed.

(** X9. In a tree whose sibling titles are distinct and whose titles are
    non-empty and free of [>], every path shown in the structure list
    resolves to a node: what can be selected can be addressed. *)
Theorem listed_path_resolves (data : dict) (q : str) :
  titles_unique data = true ->
  titles_plain data = true ->
  q ∈ all_paths data ->
  exists m, get_item_data data q = Some m.
Proof.
  intros Hu Hp Hq.
  destruct (listed_walk (Node [] [] data) [] q Hu Hp Hq)
    as (ks & m & Hne & -> & Hwalk & Hplain).
  exists m. destruct ks as [|k ks]; [done|].
  assert (Hk : k <> []).
  { apply Forall_cons in Hplain as [[? _]%plain_title_spec _]. done. }
  rewrite foldl_child_path_join by done.
  assert (Hfree : Forall (fun k => 62 ∉ k) (k :: ks)).
  { eapply Forall_impl; [exact Hplain|]. by intros x [_ ?]%plain_title_spec. }
  assert (Hq' : join SEP (k :: ks) <> []).
  { destruct ks; [done|].
    change (join SEP (k :: l :: ks)) with (k ++ SEP ++ join SEP (l :: ks)).
    by destruct k. }
  rewrite get_item_data_eq by done.
  by rewrite split_join_plain.
Qed.

Lemma listed_path_resolves_witness :
  exists m, get_item_data sample_tree (text "A > C") = Some m.
Proof.
  apply (listed_path_resolves sample_tree (text "A > C")).
  - reflexivity.
  - reflexivity.
  - apply list_elem_of_In. vm_compute. auto.
Defined.

(** ** Moving there and back *)

Lemma modify_at_overwrite ps (x y d : dict) :
  modify_at ps (fun _ => x) (modify_at ps (fun _ => y) d)
  = modify_at ps (fun _ => x) d.
Proof.
  revert d. induction ps as [|k ps IH]; intros d; [done|]. simpl.
  induction d as [|[k0 v0] d IHd]; [done|]. simpl.
  destruct (str_eqb k k0) eqn:E; simpl; rewrite E.
  - unfold set_subtitles. simpl. by rewrite IH.
  - by rewrite IHd.
Qed.

Lemma modify_at_same ps (x d : dict) :
  descend ps d = Some x -> modify_at ps (fun _ => x) d = d.
Proof.
  revert d. induction ps as [|k ps IH]; intros d; simpl.
  - by intros [= ->].
  - induction d as [|[k0 v0] d IHd]; [done|]. simpl.
    destruct (str_eqb k k0) eqn:E.
    + intros Hx. rewrite (IH _ Hx). by destruct v0.
    + intros Hx. by rewrite IHd.
Qed.

Lemma resolved_path_listed (data : dict) p m :
  get_item_data data p = Some m -> starts_with SEP p = false -> p ∈ all_paths data.
Proof.
  intros Hm Hst.
  assert (Hp : p <> []) by (by intros ->).
  destruct (split_first_part p Hp Hst) as (k & parts & Hsplit & Hk).
  rewrite get_item_data_eq in Hm by done.
  apply (walk_listed _ _ [] m) in Hm; [|apply split_from_nonempty].
  rewrite Hsplit, foldl_child_path_join in Hm by done.
  by rewrite <- Hsplit, join_split_path in Hm.
Qed.

(** The state a successful [move_item] returns. *)
Lemma move_item_result st direction (d d' : dict) (idx new_index : nat) :
  current_selection st <> [] ->
  truthy (any_ancestor_locked (locked_paths st) (current_selection st)) = false ->
  descend (init_parts (split SEP (current_selection st))) (accordion_data st)
  = Some d ->
  NoDup (keys d) ->
  last_part (split SEP (current_selection st)) ∈ keys d ->
  index_of (last_part (split SEP (current_selection st))) (keys d) = idx ->
  (if str_eqb direction (text "up") then
     if bool_decide (idx = 0%nat) then inl AlreadyAtBoundary
     else inr (idx - 1)%nat
   else if str_eqb direction (text "down") then
     if bool_decide (idx = (length (keys d) - 1)%nat) then inl AlreadyAtBoundary
     else inr (idx + 1)%nat
   else inl UnknownDirection) = inr new_index ->
  list_insert_at new_index (last_part (split SEP (current_selection st)))
    (delete idx (keys d)) = keys d' ->
  d' ⊆ d ->
  NoDup (keys d') ->
  move_item direction st
  = (Done,
     update_structure_display (Some (current_selection st))
       (with_data
          (modify_at (init_parts (split SEP (current_selection st)))
             (fun _ => d') (accordion_data st)) st)).
Proof.
  intros Hsel Hlock Hdesc Hnd Hin Hidx Hdir Hkeys Hsub Hnd'. unfold move_item.
  pose proof (get_siblings_selection st d Hsel Hlock Hdesc) as Hsib.
  apply existsb_str_eqb in Hin.
  destruct (current_selection st) as [|c sel] eqn:Esel; [done|].
  rewrite Hlock, Hsib, Hin. cbn [negb].
  rewrite Hidx, Hdir, Hkeys, (reordered_items_elems d d' Hnd Hsub).
  rewrite dict_rebuild_distinct by done.
  cbn [current_selection with_data]. by rewrite Esel.
Qed.

(** X10. Moving a node up and then down again puts everything back: for an
    unlocked selection that is not the first child, [move_item_up] followed
    by [move_item_down] both succeed and the final state is the initial
    one. *)
Theorem move_up_then_down_restores
    (st : state) (l1 l2 : dict) (a : str * node) (v : node) :
  current_selection st <> [] ->
  starts_with SEP (current_selection st) = false ->
  any_ancestor_locked (locked_paths st) (current_selection st) = None ->
  descend (init_parts (split SEP (current_selection st))) (accordion_data st)
  = Some (l1 ++ a :: (last_part (split SEP (current_selection st)), v) :: l2) ->
  NoDup (keys (l1 ++ a :: (last_part (split SEP (current_selection st)), v) :: l2)) ->
  fst (move_item_up st) = Done
  /\ descend (init_parts (split SEP (current_selection st)))
       (accordion_data (snd (move_item_up st)))
     = Some (l1 ++ (last_part (split SEP (current_selection st)), v) :: a :: l2)
  /\ move_item_down (snd (move_item_up st)) = (Done, st).
Proof.
  intros Hsel Hst Hnone Hdesc Hnd.
  set (key := last_part (split SEP (current_selection st))) in *.
  set (pp := init_parts (split SEP (current_selection st))) in *.
  set (d := l1 ++ a :: (key, v) :: l2) in *.
  set (d' := l1 ++ (key, v) :: a :: l2).
  assert (Hlock : truthy (any_ancestor_locked (locked_paths st)
                            (current_selection st)) = false) by (by rewrite Hnone).
  destruct (swapped_siblings _ _ _ _ Hnd) as [Hsub Hnd']. fold d' in Hsub, Hnd'.
  assert (Hsub' : d ⊆ d').
  { intros x. unfold d, d'. rewrite !elem_of_app, !elem_of_cons. tauto. }
  assert (Hkeys : keys d = keys l1 ++ fst a :: key :: keys l2).
  { unfold d, keys. by rewrite fmap_app. }
  assert (Hkeys' : keys d' = keys l1 ++ key :: fst a :: keys l2).
  { unfold d', keys. by rewrite fmap_app. }
  assert (Hk : key ∉ keys l1 ++ [fst a]).
  { unfold d in Hnd.
    change (l1 ++ a :: (key, v) :: l2) with (l1 ++ [a] ++ (key, v) :: l2) in Hnd.
    rewrite app_assoc in Hnd. apply NoDup_keys_middle in Hnd as (Hk & _).
    unfold keys in Hk. by rewrite fmap_app in Hk. }
  assert (Hk' : key ∉ keys l1).
  { intros ?. apply Hk, elem_of_app. by left. }
  assert (Hup : move_item_up st
                = (Done,
                   update_structure_display (Some (current_selection st))
                     (with_data (modify_at pp (fun _ => d') (accordion_data st)) st))).
  { apply (move_item_result st (text "up") d d'
             (S (length (keys l1))) (length (keys l1))); try done.
    - rewrite Hkeys. apply elem_of_app. right. right. by left.
    - fold key. rewrite Hkeys.
      change (keys l1 ++ fst a :: key :: keys l2)
        with (keys l1 ++ [fst a] ++ key :: keys l2).
      rewrite app_assoc, index_of_split by done.
      rewrite length_app. simpl. lia.
    - change (str_eqb (text "up") (text "up")) with true. cbn match.
      rewrite bool_decide_eq_false_2 by lia. f_equal. lia.
    - fold key. by rewrite Hkeys, pop_insert_up, Hkeys'. }
  assert (Hdata1 : descend pp (modify_at pp (fun _ => d') (accordion_data st))
                   = Some d').
  { by rewrite (descend_modify_at _ _ _ _ Hdesc). }
  assert (Hlisted : forall data x,
             descend pp data = Some x -> key ∈ keys x ->
             current_selection st ∈ all_paths data).
  { intros data x Hx Hkx.
    destruct (dict_mem_get key x) as [m Hm]; [by apply dict_mem_keys|].
    apply (resolved_path_listed data _ m); [|done].
    rewrite get_item_data_eq by done. fold pp key. by rewrite Hx. }
  assert (Hst1 : snd (move_item_up st)
                 = with_data (modify_at pp (fun _ => d') (accordion_data st)) st).
  { rewrite Hup. cbn [snd]. rewrite update_structure_display_listed; [|done|].
    - by destruct st.
    - apply (Hlisted _ d'); [done|].
      rewrite Hkeys'. apply elem_of_app. right. by left. }
  split; [by rewrite Hup|]. split.
  { rewrite Hst1. exact Hdata1. }
  rewrite Hst1.
  set (st1 := with_data (modify_at pp (fun _ => d') (accordion_data st)) st).
  unfold move_item_down.
  rewrite (move_item_result st1 (text "down") d' d
             (length (keys l1)) (length (keys l1) + 1)); try done.
  - f_equal. cbn [current_selection accordion_data st1 with_data].
    fold pp. rewrite modify_at_overwrite, (modify_at_same _ _ _ Hdesc).
    rewrite update_structure_display_listed; [by destruct st|done|].
    apply (Hlisted _ d); [done|].
    rewrite Hkeys. apply elem_of_app. right. right. by left.
  - cbn [current_selection st1 with_data]. fold key.
    rewrite Hkeys'. apply elem_of_app. right. by left.
  - cbn [current_selection st1 with_data]. fold key.
    by rewrite Hkeys', index_of_split.
  - change (str_eqb (text "down") (text "up")) with false.
    change (str_eqb (text "down") (text "down")) with true. cbn match.
    rewrite bool_decide_eq_false_2; [done|].
    rewrite Hkeys', length_app. simpl. lia.
  - cbn [current_selection st1 with_data]. fold key.
    by rewrite Hkeys', pop_insert_down, Hkeys.
Qed.

Lemma move_up_then_down_restores_witness :
  let st := sample_state (text "A > C") in
  fst (move_item_up st) = Done
  /\ descend [text "A"] (accordion_data (snd (move_item_up st)))
     = Some ([] ++ (text "C", leaf "c") :: (text "B", leaf "b")
               :: [(text "D", leaf "d")])
  /\ move_item_down (snd (move_item_up st)) = (Done, st).
Proof.
  apply (move_up_then_down_restores (sample_state (text "A > C"))
           [] [(text "D", leaf "d")] (text "B", leaf "b") (leaf "c")).
  - vm_compute. discriminate.
  - reflexivity.
  - reflexivity.
  - reflexivity.
  - decide_by_compute.
Defined.

(** ** Relocating *)

(** Storing a fresh key in the dictionary that one path reaches, seen from
    another path: that path still resolves, its dictionary has the same keys
    (and the new one when the two paths are equal), and is the same
    dictionary unless the mutated one lies at or below it. *)
Lemma descend_modify_at_fresh (p q : list str) k v (d x t : dict) :
  descend p d = Some x ->
  descend q d = Some t ->
  k ∉ keys t ->
  exists x', descend p (modify_at q (dict_set k v) d) = Some x'
    /\ keys x' = keys x ++ (if decide (q = p) then [k] else [])
    /\ (~ p `prefix_of` q -> x' = x).
Proof.
  revert q d. induction p as [|a p IH]; intros [|b q] d; simpl.
  - intros [= <-] [= <-] Hk. exists (d ++ [(k, v)]).
    rewrite dict_set_fresh by done. split; [done|]. split.
    + unfold keys. by rewrite map_app.
    + intros []. done.
  - intros [= <-] _ _. eexists. split; [done|]. split.
    + by rewrite keys_dict_alter, app_nil_r.
    + intros []. apply prefix_nil.
  - intros Hp [= <-] Hk. exists x. rewrite dict_set_fresh by done.
    destruct (dict_get a d) as [n|] eqn:Ha; [|done].
    rewrite (dict_get_app_l _ _ _ _ Ha). split; [done|].
    by rewrite app_nil_r.
  - intros Hp Hq Hk.
    destruct (dict_get a d) as [n|] eqn:Ha; [|done].
    destruct (decide (a = b)) as [<-|Hab].
    + rewrite Ha in Hq. rewrite dict_get_alter, Ha. simpl.
      destruct (IH q (subtitles n) Hp Hq Hk) as (x' & Hx' & Hkeys & Hframe).
      exists x'. split; [done|]. split.
      * rewrite Hkeys. destruct (decide (q = p)) as [->|Hne].
        -- by rewrite decide_True.
        -- rewrite decide_False; [done|]. by intros [= ?].
      * intros Hnp. apply Hframe. intros Hpre. apply Hnp.
        by apply prefix_cons.
    + rewrite dict_get_alter_ne, Ha by done. exists x. split; [done|].
      rewrite decide_False by (by intros [= ? ?]). by rewrite app_nil_r.
Qed.

(** X11. A relocation that goes through stores the node, with its whole
    sub-tree, as the last child of the destination parent under the last
    part of the new path; the destination is looked up after the node has
    been taken out.  In the resulting tree the source parent has the keys
    of the former siblings, in their order, followed by the new name when
    the destination parent is the source parent itself; the siblings'
    entries are the same ones unless the destination lies below the source
    parent.  The old name is still a key of the source parent exactly when
    the new path is the node's own path, in which case the node has moved
    behind its siblings. *)
Theorem change_path_moves_subtree
    (st : state) (new_path : str) (pp : list str) (l1 l2 dest : dict)
    (key : str) (item : node) :
  any_ancestor_locked (locked_paths st) (current_selection st) = None ->
  get_parent_dict_and_key (accordion_data st) (current_selection st)
  = Some (pp, l1 ++ (key, item) :: l2, key) ->
  NoDup (keys (l1 ++ (key, item) :: l2)) ->
  new_path <> [] ->
  parse_new_path new_path <> [] ->
  let detached := modify_at pp (dict_del key) (accordion_data st) in
  descend (init_parts (parse_new_path new_path)) detached = Some dest ->
  last_part (parse_new_path new_path) ∉ keys dest ->
  let r := change_path (Some new_path) st in
  fst r = Done
  /\ descend pp detached = Some (l1 ++ l2)
  /\ descend (init_parts (parse_new_path new_path)) (accordion_data (snd r))
     = Some (dest ++ [(last_part (parse_new_path new_path), item)])
  /\ (exists d' : dict,
        descend pp (accordion_data (snd r)) = Some d'
        /\ keys d'
           = keys (l1 ++ l2)
               ++ (if decide (init_parts (parse_new_path new_path) = pp)
                   then [last_part (parse_new_path new_path)] else [])
        /\ (~ pp `prefix_of` init_parts (parse_new_path new_path) ->
            d' = l1 ++ l2)
        /\ (key ∈ keys d'
            <-> init_parts (parse_new_path new_path) = pp
                /\ last_part (parse_new_path new_path) = key))
  /\ locked_paths (snd r) = locked_paths st
  /\ selected_image_path (snd r) = selected_image_path st.
Proof.
  intros Hnone Hget Hnd Hnp Hparts detached Hdest Hfresh r.
  pose proof (get_parent_dict_and_key_Some _ _ _ _ _ Hget)
    as (Hsel & Hpp & Hkey & Hdesc & Hin).
  pose proof (NoDup_keys_middle _ _ _ _ Hnd) as (Hk1 & Hk2 & _).
  assert (Hr : r = (Done,
                    update_structure_display
                      (Some (join SEP (parse_new_path new_path)))
                      (with_selection (join SEP (parse_new_path new_path))
                         (with_data
                            (modify_at (init_parts (parse_new_path new_path))
                               (dict_set (last_part (parse_new_path new_path)) item)
                               detached) st)))).
  { subst r. unfold change_path.
    destruct (current_selection st) as [|c sel] eqn:Esel; [done|].
    rewrite Hnone. destruct new_path as [|n0 np]; [done|].
    cbn [truthy negb default from_option id].
    destruct (parse_new_path (n0 :: np)) as [|p0 ps] eqn:Eparts; [done|].
    rewrite Hget, (dict_get_middle _ _ _ _ Hnd).
    cbn [accordion_data with_data]. fold detached.
    unfold ensure_parent_path. rewrite Hdest.
    apply dict_mem_false in Hfresh. by rewrite Hfresh. }
  assert (Hsrc : descend pp detached = Some (l1 ++ l2)).
  { unfold detached. rewrite (descend_modify_at _ _ _ _ Hdesc).
    by rewrite dict_del_split. }
  rewrite Hr. cbn [fst snd]. split; [done|]. split; [done|].
  rewrite update_structure_display_data, update_structure_display_locks.
  cbn [accordion_data locked_paths with_data with_selection].
  split; [|split; [|split; [done|]]].
  - rewrite (descend_modify_at _ _ _ _ Hdest). by rewrite dict_set_fresh.
  - destruct (descend_modify_at_fresh pp (init_parts (parse_new_path new_path))
                (last_part (parse_new_path new_path)) item detached
                (l1 ++ l2) dest Hsrc Hdest Hfresh)
      as (d' & Hd' & Hkeys & Hframe).
    exists d'. split; [done|]. split; [done|]. split; [done|].
    assert (Hout : key ∉ keys (l1 ++ l2)).
    { unfold keys. rewrite fmap_app. intros [?|?]%elem_of_app; tauto. }
    rewrite Hkeys, elem_of_app. case_decide as Hsame.
    + rewrite list_elem_of_singleton. split.
      * intros [? | ->]; [tauto|done].
      * intros [_ ->]. by right.
    + split.
      * intros [?|?%elem_of_nil]; tauto.
      * tauto.
  - unfold update_structure_display.
    destruct (join SEP (parse_new_path new_path)); [done|].
    by case_bool_decide.
Qed.

(** Renaming [A > B] to [A > B2] in the sample tree: the children of [A]
    are then [C], [D] and [B2]. *)
Lemma change_path_moves_subtree_witness :
  let st := sample_state (text "A > B") in
  let detached := modify_at [text "A"] (dict_del (text "B")) sample_tree in
  let r := change_path (Some (text "A > B2")) st in
  fst r = Done
  /\ descend [text "A"] detached
     = Some ([] ++ [(text "C", leaf "c"); (text "D", leaf "d")])
  /\ descend (init_parts (parse_new_path (text "A > B2"))) (accordion_data (snd r))
     = Some ([(text "C", leaf "c"); (text "D", leaf "d")]
               ++ [(last_part (parse_new_path (text "A > B2")), leaf "b")])
  /\ (exists d' : dict,
        descend [text "A"] (accordion_data (snd r)) = Some d'
        /\ keys d'
           = keys ([] ++ [(text "C", leaf "c"); (text "D", leaf "d")])
               ++ (if decide (init_parts (parse_new_path (text "A > B2"))
                              = [text "A"])
                   then [last_part (parse_new_path (text "A > B2"))] else [])
        /\ (~ [text "A"] `prefix_of` init_parts (parse_new_path (text "A > B2")) ->
            d' = [] ++ [(text "C", leaf "c"); (text "D", leaf "d")])
        /\ (text "B" ∈ keys d'
            <-> init_parts (parse_new_path (text "A > B2")) = [text "A"]
                /\ last_part (parse_new_path (text "A > B2")) = text "B"))
  /\ locked_paths (snd r) = ∅
  /\ selected_image_path (snd r) = [].
Proof.
  apply (change_path_moves_subtree (sample_state (text "A > B")) (text "A > B2")
           [text "A"] [] [(text "C", leaf "c"); (text "D", leaf "d")]
           [(text "C", leaf "c"); (text "D", leaf "d")]
           (text "B") (leaf "b")).
  - reflexivity.
  - reflexivity.
  - decide_by_compute.
  - vm_compute. discriminate.
  - vm_compute. discriminate.
  - reflexivity.
  - decide_by_compute.
Defined.

(** X12. A relocation that does not go through loses nothing: the parent of
    the selected node holds the same entries as before, possibly in another
    order (the node is stored again after its siblings), and the selection,
    the pending image and the lock set are untouched. *)
Theorem change_path_refusal_keeps_children
    (st : state) (new_path : option str) (pp : list str) (d : dict)
    (key : str) (item : node) :
  get_parent_dict_and_key (accordion_data st) (current_selection st)
  = Some (pp, d, key) ->
  dict_get key d = Some item ->
  NoDup (keys d) ->
  let r := change_path new_path st in
  fst r = Done
  \/ exists d',
       descend pp (accordion_data (snd r)) = Some d'
       /\ d' ≡ₚ d
       /\ current_selection (snd r) = current_selection st
       /\ selected_image_path (snd r) = selected_image_path st
       /\ locked_paths (snd r) = locked_paths st.
Proof.
  intros Hget Hitem Hnd r.
  pose proof (get_parent_dict_and_key_Some _ _ _ _ _ Hget)
    as (Hsel & Hpp & Hkey & Hdesc & Hin).
  destruct (dict_get_split _ _ _ Hitem) as (l1 & l2 & -> & Hk1).
  pose proof (NoDup_keys_middle _ _ _ _ Hnd) as (_ & Hk2 & _).
  assert (Hsame : snd r = st ->
            exists d',
              descend pp (accordion_data (snd r)) = Some d'
              /\ d' ≡ₚ l1 ++ (key, item) :: l2
              /\ current_selection (snd r) = current_selection st
              /\ selected_image_path (snd r) = selected_image_path st
              /\ locked_paths (snd r) = locked_paths st).
  { intros ->. by exists (l1 ++ (key, item) :: l2). }
  assert (Hrestored :
            snd r = with_data
                      (modify_at pp (dict_set key item)
                         (modify_at pp (dict_del key) (accordion_data st))) st ->
            exists d',
              descend pp (accordion_data (snd r)) = Some d'
              /\ d' ≡ₚ l1 ++ (key, item) :: l2
              /\ current_selection (snd r) = current_selection st
              /\ selected_image_path (snd r) = selected_image_path st
              /\ locked_paths (snd r) = locked_paths st).
  { intros ->. exists (l1 ++ l2 ++ [(key, item)]).
    cbn [accordion_data current_selection selected_image_path locked_paths with_data].
    split; [|split; [|done]].
    - erewrite descend_modify_at; [|by apply descend_modify_at].
      rewrite dict_del_split by done. rewrite dict_set_fresh.
      + by rewrite <- app_assoc.
      + unfold keys. rewrite fmap_app, elem_of_app. by intros [?|?].
    - apply Permutation_app_head. symmetry. apply Permutation_cons_append. }
  subst r. unfold change_path in *.
  destruct (current_selection st) as [|c sel] eqn:Esel; [done|].
  destruct (truthy _); [by right; apply Hsame|].
  destruct (negb _); [by right; apply Hsame|].
  destruct (parse_new_path _) as [|p0 ps]; [by right; apply Hsame|].
  rewrite Hget, (dict_get_middle _ _ _ _ Hnd) in *.
  cbn [accordion_data with_data] in *.
  destruct (ensure_parent_path _ _) as [[dest_parts dest_parent]|];
    [|by right; apply Hrestored].
  destruct (dict_mem _ _); [by right; apply Hrestored|by left].
Qed.

Lemma change_path_refusal_keeps_children_witness :
  let st := sample_state (text "A > B") in
  let r := change_path (Some (text "Z > Q")) st in
  fst r = Done
  \/ exists d',
       descend [text "A"] (accordion_data (snd r)) = Some d'
       /\ d' ≡ₚ sample_children
       /\ current_selection (snd r) = text "A > B"
       /\ selected_image_path (snd r) = []
       /\ locked_paths (snd r) = ∅.
Proof.
  apply (change_path_refusal_keeps_children (sample_state (text "A > B"))
           (Some (text "Z > Q")) [text "A"] sample_children (text "B") (leaf "b")).
  - reflexivity.
  - reflexivity.
  - decide_by_compute.
Defined.

(** ** Normalization, line by line *)

Lemma split_normalized t :
  split [LF] (normalize_universal_bullets t) = map normalize_line (split [LF] t).
Proof.
  unfold normalize_universal_bullets. apply split_join_lines.
  - intros H%fmap_nil_inv. by apply split_from_nonempty in H.
  - apply Forall_fmap. eapply Forall_impl; [apply split_lines_no_lf|].
    intros ln. apply normalize_line_no_lf.
Qed.

Lemma normalize_line_cases ln :
  normalize_line ln = ln
  \/ exists c, normalize_line ln = BULLET :: SPACE :: c /\ strip c = c.
Proof.
  unfold normalize_line. destruct (bullet_start_regex_match ln); [|by left].
  right. eexists. split; [done|]. apply strip_strip.
Qed.

(** X13. Normalization works line by line: the output has as many lines as
    the input, and its [i]-th line is the [i]-th input line, either
    untouched or rewritten to the bullet, one space and a text without
    leading or trailing white space. *)
Theorem normalize_universal_bullets_linewise (t : str) :
  length (split [LF] (normalize_universal_bullets t)) = length (split [LF] t)
  /\ forall (i : nat) ln,
       split [LF] t !! i = Some ln ->
       exists ln',
         split [LF] (normalize_universal_bullets t) !! i = Some ln'
         /\ (ln' = ln
             \/ exists c, ln' = BULLET :: SPACE :: c /\ strip c = c).
Proof.
  rewrite split_normalized. split; [apply length_fmap|].
  intros i ln Hi. exists (normalize_line ln).
  rewrite list_lookup_fmap, Hi. split; [done|]. apply normalize_line_cases.
Qed.

(** X14. Text without bullet lines is left exactly as it is. *)
Theorem normalize_universal_bullets_plain (t : str) :
  (forall ln, ln ∈ split [LF] t -> bullet_start_regex_match ln = None) ->
  normalize_universal_bullets t = t.
Proof.
  intros Hplain. unfold normalize_universal_bullets.
  transitivity (join [LF] (split [LF] t)); [|apply (join_split 10 [] t)].
  f_equal.
  transitivity (map id (split [LF] t)); [|apply list_fmap_id].
  apply list_fmap_ext. intros i ln Hi. unfold normalize_line.
  rewrite Hplain; [done|]. by eapply list_elem_of_lookup_2.
Qed.

Lemma normalize_universal_bullets_plain_witness :
  normalize_universal_bullets (text "Note: also bread" ++ [LF] ++ text "1.5 litres")
  = text "Note: also bread" ++ [LF] ++ text "1.5 litres".
Proof.
  apply (normalize_universal_bullets_plain
           (text "Note: also bread" ++ [LF] ++ text "1.5 litres")).
  intros ln Hln. apply list_elem_of_In in Hln. vm_compute in Hln.
  destruct Hln as [<-|[<-|[]]]; reflexivity.
Defined.

(** ** Bullet runs in the markup *)

Lemma rstrip_app_keeps x s :
  s <> [] -> rstrip s = s -> rstrip (x ++ s) = x ++ s.
Proof.
  intros Hne Hs. induction x as [|c x IH]; [done|].
  cbn [app rstrip]. rewrite IH. destruct (x ++ s) eqn:E; [|done].
  by apply app_eq_nil in E as [_ ?].
Qed.

Lemma stripped_rstrip s : strip s = s -> rstrip s = s.
Proof.
  intros Hs. destruct (strip_head s) as [H|(c & t & H & Hc)]; rewrite Hs in H.
  - by subst.
  - subst s. unfold strip in Hs. by rewrite lstrip_keeps in Hs.
Qed.

Section BulletRun.
Variable items : list str.
Hypothesis items_stripped : Forall (fun i => strip i = i) items.
Hypothesis items_nonempty : Forall (fun i => i <> []) items.
Hypothesis items_one_line : Forall (fun i => LF ∉ i) items.

Lemma bullet_lines_rstrip :
  items <> [] ->
  join [LF] (map (fun i => BULLET :: SPACE :: i) items) <> []
  /\ rstrip (join [LF] (map (fun i => BULLET :: SPACE :: i) items))
     = join [LF] (map (fun i => BULLET :: SPACE :: i) items).
Proof.
  clear items_one_line.
  induction items as [|i rest IH]; [done|]. intros _.
  apply Forall_cons in items_stripped as [Hi Hrest].
  apply Forall_cons in items_nonempty as [Hne Hrest'].
  destruct rest as [|j rest].
  - split; [done|]. simpl.
    apply (rstrip_app_keeps [BULLET; SPACE]); [done|by apply stripped_rstrip].
  - destruct (IH Hrest Hrest' ltac:(done)) as [IHne IHr].
    assert (E : join [LF] (map (fun i => BULLET :: SPACE :: i) (i :: j :: rest))
                = (BULLET :: SPACE :: i ++ [LF])
                    ++ join [LF] (map (fun i => BULLET :: SPACE :: i) (j :: rest))).
    { cbn [map join app]. by rewrite <- app_assoc. }
    rewrite E. split; [done|]. by apply rstrip_app_keeps.
Qed.

Lemma bullet_lines_fold html_parts list_buffer :
  foldl html_step (html_parts, list_buffer)
    (map (fun i => BULLET :: SPACE :: i) items)
  = (html_parts, list_buffer ++ items).
Proof.
  clear items_nonempty items_one_line. revert list_buffer.
  induction items as [|i rest IH]; intros list_buffer.
  - by rewrite app_nil_r.
  - apply Forall_cons in items_stripped as [Hi Hrest].
    cbn [map foldl]. unfold html_step at 2.
    change (starts_with [BULLET; SPACE] (BULLET :: SPACE :: i)) with true.
    cbn match. change (drop 2 (BULLET :: SPACE :: i)) with i.
    rewrite Hi, (IH Hrest). by rewrite <- app_assoc.
Qed.
End BulletRun.

(** X15. A run of bullet lines becomes one list: for texts that are
    trimmed, non-empty and on one line, the content made of the lines
    ["• " + text] converts to a single [<ul>] holding one [<li>] per text,
    in order, and nothing else. *)
Theorem content_to_html_bullet_run (items : list str) :
  items <> [] ->
  Forall (fun i => strip i = i) items ->
  Forall (fun i => i <> []) items ->
  Forall (fun i => LF ∉ i) items ->
  content_to_html (join [LF] (map (fun i => BULLET :: SPACE :: i) items))
  = join [LF]
      ([text "<ul>"]
         ++ map (fun i => text "<li>" ++ i ++ text "</li>") items
         ++ [text "</ul>"]).
Proof.
  intros Hne Hs Hn Hl.
  destruct (bullet_lines_rstrip items Hs Hn Hne) as [Hcne Hr].
  set (content := join [LF] (map (fun i => BULLET :: SPACE :: i) items)) in *.
  assert (Hstrip : strip content = content).
  { unfold strip.
    assert (Hl' : lstrip content = content).
    { subst content. destruct items as [|i [|j rest]]; [done|done|done]. }
    by rewrite Hl'. }
  unfold content_to_html. rewrite Hstrip.
  destruct content as [|c0 content'] eqn:Ec; [done|]. rewrite <- Ec.
  subst content. rewrite split_join_lines.
  - rewrite (bullet_lines_fold items Hs). cbn [app].
    unfold flush_list. destruct items; [done|]. done.
  - by intros ?%fmap_nil_inv.
  - apply Forall_fmap. eapply Forall_impl; [exact Hl|].
    intros i Hi [?|[?|?]%elem_of_cons]%elem_of_cons; done.
Qed.

Lemma content_to_html_bullet_run_witness :
  content_to_html
    (join [LF] (map (fun i => BULLET :: SPACE :: i) [text "buy milk"; text "buy eggs"]))
  = join [LF]
      ([text "<ul>"]
         ++ map (fun i => text "<li>" ++ i ++ text "</li>")
              [text "buy milk"; text "buy eggs"]
         ++ [text "</ul>"]).
Proof.
  apply (content_to_html_bullet_run [text "buy milk"; text "buy eggs"]).
  - discriminate.
  - repeat constructor.
  - repeat constructor; vm_compute; discriminate.
  - repeat constructor; decide_by_compute.
Defined.

(** ** The images of an export *)

Section ExportImages.
Variable path_exists : str -> bool.
Variable basename : str -> str.

Lemma collects_refl imgs : collects path_exists imgs imgs [].
Proof.
  split; [done|]. split; [done|]. intros i. split; [by left|].
  by intros [?|[?%elem_of_nil _]].
Qed.

Lemma collects_trans (a b c s1 s2 : list str) :
  collects path_exists a b s1 -> collects path_exists b c s2 ->
  collects path_exists a c (s1 ++ s2).
Proof.
  intros (Hn1 & Hp1 & H1) (Hn2 & Hp2 & H2).
  split; [auto|]. split; [by etrans|].
  intros i. rewrite H2, H1, elem_of_app. tauto.
Qed.

Lemma image_markup_collects title image imgs :
  collects path_exists imgs (snd (image_markup path_exists basename title image imgs))
    [image].
Proof.
  assert (Hsame : ~ (image <> [] /\ path_exists image = true
                     /\ image ∉ imgs) ->
                  collects path_exists imgs imgs [image]).
  { intros Hno. split; [done|]. split; [done|]. intros i. split; [by left|].
    intros [?|[Hi [? ?]]]; [done|]. apply list_elem_of_singleton in Hi as ->.
    destruct (decide (image ∈ imgs)); [done|]. by destruct Hno. }
  unfold image_markup. destruct image as [|c image].
  - cbn [snd]. apply Hsame. by intros [? _].
  - destruct (path_exists (c :: image)) eqn:He; cbn [snd].
    + case_bool_decide as Hin.
      * apply Hsame. by intros (_ & _ & ?).
      * split; [|split].
        -- intros Hnd. apply NoDup_app. split; [done|].
           split; [|apply NoDup_singleton].
           intros x Hx Hx'. apply list_elem_of_singleton in Hx' as ->. done.
        -- by apply prefix_app_r.
        -- intros i. rewrite elem_of_app, !list_elem_of_singleton.
           split; [intros [? | ->]; [by left|by right]|].
           intros [? | [-> _]]; [by left|by right].
    + apply Hsame. intros (_ & ? & _). congruence.
Qed.

Lemma node_images_cons c i k v (rest : dict) :
  node_images (Node c i ((k, v) :: rest))
  = image_path v :: node_images v ++ node_images (Node c i rest).
Proof. done. Qed.

Lemma generate_html_node_loop (n : node) imgs :
  generate_html_node path_exists basename n imgs
  = generate_html_loop path_exists basename true (subtitles n) [] imgs.
Proof.
  destruct n as [c i subs]. cbn [subtitles generate_html_node].
  generalize (@nil N). revert imgs.
  induction subs as [|[k v] rest IH]; intros imgs html; [done|].
  cbn [generate_html_loop].
  destruct (image_markup _ _ _ _ _) as [image_html imgs1].
  destruct (generate_html_node _ _ v imgs1) as [sub_html imgs2].
  apply IH.
Qed.

Lemma generate_html_loop_collects (subs : dict) :
  Forall (fun kv =>
            forall imgs,
              collects path_exists imgs
                (snd (generate_html_node path_exists basename (snd kv) imgs))
                (node_images (snd kv))) subs ->
  forall is_sub html imgs,
    collects path_exists imgs
      (snd (generate_html_loop path_exists basename is_sub subs html imgs))
      (tree_images subs).
Proof.
  unfold tree_images.
  induction 1 as [|[k v] rest Hv _ IH]; intros is_sub html imgs.
  - apply collects_refl.
  - cbn [generate_html_loop]. rewrite node_images_cons.
    pose proof (image_markup_collects k (image_path v) imgs) as H1.
    destruct (image_markup _ _ _ _ _) as [image_html imgs1]. cbn [snd] in *.
    pose proof (Hv imgs1) as H2.
    destruct (generate_html_node _ _ v imgs1) as [sub_html imgs2]. cbn [snd] in *.
    change (image_path v :: node_images v ++ node_images (Node [] [] rest))
      with ([image_path v] ++ node_images v ++ node_images (Node [] [] rest)).
    eapply collects_trans; [exact H1|]. eapply collects_trans; [exact H2|].
    apply IH.
Qed.

Lemma generate_html_node_collects (n : node) :
  forall imgs,
    collects path_exists imgs
      (snd (generate_html_node path_exists basename n imgs)) (node_images n).
Proof.
  induction n as [c i subs IH] using node_induction. intros imgs.
  rewrite generate_html_node_loop. cbn [subtitles].
  by apply (generate_html_loop_collects subs IH).
Qed.

(** X16. The images to copy for an export are exactly the images of the
    tree that are set and exist on disk, each listed once; a traversal that
    starts from a list without duplicates keeps its entries in front and
    adds no duplicate. *)
Theorem export_images_exact (data : dict) (is_sub : bool) (imgs : list str) :
  NoDup (export_images path_exists basename data)
  /\ (forall i, i ∈ export_images path_exists basename data
                <-> i ∈ tree_images data /\ i <> [] /\ path_exists i = true)
  /\ collects path_exists imgs
       (snd (generate_html path_exists basename data is_sub imgs))
       (tree_images data).
Proof.
  assert (Hall : forall is_sub imgs,
             collects path_exists imgs
               (snd (generate_html path_exists basename data is_sub imgs))
               (tree_images data)).
  { intros b l. apply generate_html_loop_collects.
    apply Forall_forall. intros kv _. apply generate_html_node_collects. }
  destruct (Hall false []) as (Hnd & _ & Hiff).
  split; [apply Hnd, NoDup_nil_2|]. split; [|apply Hall].
  intros i. unfold export_images. rewrite Hiff. split; [|by right].
  by intros [?%elem_of_nil|?].
Qed.
End ExportImages.
